(** * mandotab: notes to mandolin tablature (tab_core.py)

    A shallow embedding of [src/mandotab/tab_core.py] and the properties of
    its position resolver ([candidates_for_midi], [choose_position],
    [notes_to_tab]) and of its renderer ([render_ascii_tab]).

    Python values are modelled as follows.
    - [int] is [Z] (unbounded).
    - [float] is IEEE 754 binary64, round to nearest even, as given by the
      standard library's [SpecFloat] with [prec = 53] and [emax = 1024].
    - [str] is [string]; every character the program produces is ASCII;
      [str(n)] of an [int] raises past CPython's default limit of 4300
      digits.
    - a raised exception is the [Raise] outcome of the [result] type.
    - a [dict] whose iteration order matters is an association list in
      insertion order. *)

From Stdlib Require Import ZArith List Bool Lia String Ascii.
From Stdlib Require Import QArith Permutation Sorted.
From Stdlib Require Import Floats.SpecFloat.
From Stdlib Require Decimal DecimalString DecimalPos.
Import ListNotations.

Local Open Scope Z_scope.

(** ** Floats *)

Definition float := spec_float.

Definition prec : Z := 53.
Definition emax : Z := 1024.

Definition fmul : float -> float -> float := SFmul prec emax.
Definition fadd : float -> float -> float := SFadd prec emax.
Definition fltb : float -> float -> bool := SFltb.
Definition fleb : float -> float -> bool := SFleb.
Definition feqb : float -> float -> bool := SFeqb.

Definition is_nan (x : float) : bool :=
  match x with S754_nan => true | _ => false end.

(** The binary64 value nearest to [m * 2^e]. *)
Definition b64 (m e : Z) : float := binary_normalize prec emax m e false.

(** The literals [1.0] and [0.7] of [score]. *)
Definition f_1_0 : float := S754_finite false 4503599627370496 (-52).
Definition f_0_7 : float := S754_finite false 6305039478318694 (-53).

(** ** Exceptions *)

Inductive exn : Type :=
| OverflowError   (* int too large to convert to float *)
| ValueError      (* min() of an empty sequence; int too long for str() *)
| IndexError.     (* list index out of range *)

Inductive result (A : Type) : Type :=
| Ok (a : A)
| Raise (e : exn).

Arguments Ok {A} a.
Arguments Raise {A} e.

Definition bind {A B : Type} (r : result A) (k : A -> result B) : result B :=
  match r with
  | Ok a => k a
  | Raise e => Raise e
  end.

Notation "x <- r ;; k" := (bind r (fun x => k))
  (at level 61, r at next level, right associativity).

(** [float(n)] for an [int]: correctly rounded, and [OverflowError] when the
    rounded value is beyond the largest finite binary64. *)
Definition float_of_int (n : Z) : result float :=
  match binary_normalize prec emax n 0 false with
  | S754_infinity _ => Raise OverflowError
  | x => Ok x
  end.

(** ** Data models *)

Module NoteEvent.
Record t : Type := mk {
  start_time : float;        (* seconds *)
  end_time : float;          (* seconds *)
  midi : Z;                  (* 0-127 MIDI pitch *)
  confidence : float         (* 0-1, 1.0 when not given *)
}.
End NoteEvent.

Module TabEvent.
Record t : Type := mk {
  start_time : float;
  end_time : float;
  string : Z;                (* 4 = G, 3 = D, 2 = A, 1 = E *)
  fret : Z;                  (* 0 = open *)
  midi : Z
}.
End TabEvent.

(** ** Mandolin tuning helpers *)

(** The dict literal, in insertion order: G3, D4, A4, E5. *)
Definition MANDOLIN_TUNING : list (Z * Z) :=
  [(4, 55); (3, 62); (2, 69); (1, 76)].

Definition MAX_FRET : Z := 20.

(** [d[k]] on an association list with distinct keys. *)
Fixpoint dict_get {V : Type} (d : list (Z * V)) (k : Z) : option V :=
  match d with
  | [] => None
  | (k', v) :: d' => if k' =? k then Some v else dict_get d' k
  end.

(** One turn of the loop of [candidates_for_midi]. *)
Definition candidates_step (midi : Z) (candidates : list (Z * Z))
    (item : Z * Z) : list (Z * Z) :=
  let '(string, open_midi) := item in
  let fret := midi - open_midi in
  if (0 <=? fret) && (fret <=? MAX_FRET)
  then candidates ++ [(string, fret)]
  else candidates.

Definition candidates_for_midi (midi : Z) : list (Z * Z) :=
  fold_left (candidates_step midi) MANDOLIN_TUNING [].

(** ** Builtins: [sorted] and [min] with a key *)

Section Builtins.
Context {A K : Type}.
Variable ltb : K -> K -> bool.   (* [<] on keys *)

(** [sorted(l, key=key)] is a stable sort that compares keys with [<]
    only.  It is modelled by a stable insertion sort: [x], which comes
    before every element of [l] in the input, is put in front of the first
    element whose key is not smaller than its own.  On keys that [<] orders
    totally (ints, pairs of ints, floats without NaN) the stable sort of a
    list is unique ([sorted_unique] below), so this is the list Python
    builds; among floats with a NaN Python's result depends on how it
    merges, and is not modelled. *)
Fixpoint insert_sorted (key : A -> K) (x : A) (l : list A) : list A :=
  match l with
  | [] => [x]
  | y :: l' =>
      if ltb (key y) (key x) then y :: insert_sorted key x l'
      else x :: y :: l'
  end.

Definition sorted (key : A -> K) (l : list A) : list A :=
  fold_right (insert_sorted key) [] l.

(** The loop of [min(l, key=key)]: a later item replaces the best one so
    far only when its key is strictly smaller. *)
Fixpoint min_loop (key : A -> result K) (best : A) (best_key : K)
    (l : list A) : result A :=
  match l with
  | [] => Ok best
  | x :: l' =>
      k <- key x ;;
      if ltb k best_key then min_loop key x k l'
      else min_loop key best best_key l'
  end.

Definition min_by (key : A -> result K) (l : list A) : result A :=
  match l with
  | [] => Raise ValueError
  | x :: l' => k <- key x ;; min_loop key x k l'
  end.
End Builtins.

(** [<] on pairs of ints: lexicographic. *)
Definition pair_ltb (a b : Z * Z) : bool :=
  if fst a =? fst b then snd a <? snd b else fst a <? fst b.

(** ** Position selection *)

(** The closure [score] of [choose_position]. *)
Definition score (prev : TabEvent.t) (sf : Z * Z) : result float :=
  let '(s, f) := sf in
  let dist_fret := Z.abs (f - TabEvent.fret prev) in
  let dist_string := Z.abs (s - TabEvent.string prev) in
  x <- float_of_int dist_fret ;;
  let a := fmul x f_1_0 in
  y <- float_of_int dist_string ;;
  Ok (fadd a (fmul y f_0_7)).

Definition choose_position (midi : Z) (prev : option TabEvent.t)
    : result (option (Z * Z)) :=
  let candidates := candidates_for_midi midi in
  match candidates with
  | [] => Ok None
  | _ :: _ =>
      match prev with
      | None =>
          match sorted pair_ltb (fun sf => (snd sf, fst sf)) candidates with
          | first :: _ => Ok (Some first)
          | [] => Raise IndexError
          end
      | Some prev =>
          best <- min_by fltb (score prev) candidates ;;
          Ok (Some best)
      end
  end.

(** ** Notes -> Tab *)

(** The [for] loop of [notes_to_tab], with its two accumulators. *)
Fixpoint resolve_loop (note_events : list NoteEvent.t)
    (tab_events : list TabEvent.t) (prev_tab : option TabEvent.t)
    : result (list TabEvent.t) :=
  match note_events with
  | [] => Ok tab_events
  | n :: rest =>
      pos <- choose_position (NoteEvent.midi n) prev_tab ;;
      match pos with
      | None => resolve_loop rest tab_events prev_tab
      | Some (string, fret) =>
          let tab := TabEvent.mk (NoteEvent.start_time n)
                       (NoteEvent.end_time n) string fret
                       (NoteEvent.midi n) in
          resolve_loop rest (tab_events ++ [tab]) (Some tab)
      end
  end.

Definition notes_to_tab (note_events : list NoteEvent.t)
    : result (list TabEvent.t) :=
  match note_events with
  | [] => Ok []
  | _ :: _ =>
      let note_events := sorted fltb NoteEvent.start_time note_events in
      resolve_loop note_events [] None
  end.

(** ** Tab -> ASCII *)

Local Open Scope string_scope.

(** The decimal numeral of an [int], with a leading minus sign for a
    negative number. *)
Definition numeral (n : Z) : string :=
  DecimalString.NilZero.string_of_int (Z.to_int n).

(** [sys.int_info.default_max_str_digits]: the most digits that CPython
    converts between [int] and [str], unless it is configured otherwise. *)
Definition max_str_digits : Z := 4300.

(** [str(n)] for an [int]: its numeral, and [ValueError] when the numeral
    has more than [max_str_digits] digits, that is when the absolute value
    of [n] is at least [10 ^ max_str_digits]. *)
Definition str (n : Z) : result string :=
  if (10 ^ max_str_digits <=? Z.abs n)%Z then Raise ValueError
  else Ok (numeral n).

(** [s[-2:]]. *)
Definition last_two (s : string) : string :=
  substring (String.length s - 2) 2 s.

(** The 2-character chunk of string [s] in the column of event [ev]. *)
Definition chunk (s : Z) (ev : TabEvent.t) : result string :=
  if (s =? TabEvent.string ev)%Z then
    fret_txt <- str (TabEvent.fret ev) ;;
    Ok (if Nat.eqb (String.length fret_txt) 1 then "-" ++ fret_txt
        else if Nat.leb 2 (String.length fret_txt) then last_two fret_txt
        else fret_txt)
  else Ok "--".

(** The dict [columns], keys in insertion order. *)
Definition columns_init : list (Z * list string) :=
  [(1, []); (2, []); (3, []); (4, [])]%Z.

(** The inner loop: one chunk appended to every string's list, in the order
    of the keys, until a chunk raises. *)
Fixpoint emit_column (columns : list (Z * list string)) (ev : TabEvent.t)
    : result (list (Z * list string)) :=
  match columns with
  | [] => Ok []
  | (s, chunks) :: rest =>
      fret_txt <- chunk s ev ;;
      rest' <- emit_column rest ev ;;
      Ok ((s, (chunks ++ [fret_txt])%list) :: rest')
  end.

(** The outer loop, over the events. *)
Fixpoint emit_columns (tab_events : list TabEvent.t)
    (columns : list (Z * list string)) : result (list (Z * list string)) :=
  match tab_events with
  | [] => Ok columns
  | ev :: rest =>
      columns' <- emit_column columns ev ;;
      emit_columns rest columns'
  end.

Definition nl : string := String (ascii_of_nat 10) "".

(** [sep.join(l)]. *)
Fixpoint join (sep : string) (l : list string) : string :=
  match l with
  | [] => ""
  | [x] => x
  | x :: l' => x ++ sep ++ join sep l'
  end.

Definition column (columns : list (Z * list string)) (s : Z) : list string :=
  match dict_get columns s with
  | Some chunks => chunks
  | None => []
  end.

(** The four lines, before they are joined. *)
Definition render_lines (tab_events : list TabEvent.t) : result (list string) :=
  let tab_events := sorted fltb TabEvent.start_time tab_events in
  columns <- emit_columns tab_events columns_init ;;
  let line_E := "E|" ++ join "" (column columns 1) ++ "|" in
  let line_A := "A|" ++ join "" (column columns 2) ++ "|" in
  let line_D := "D|" ++ join "" (column columns 3) ++ "|" in
  let line_G := "G|" ++ join "" (column columns 4) ++ "|" in
  Ok [line_E; line_A; line_D; line_G].

Definition render_ascii_tab (tab_events : list TabEvent.t) : result string :=
  match tab_events with
  | [] => Ok ("E|" ++ nl ++ "A|" ++ nl ++ "D|" ++ nl ++ "G|" ++ nl)
  | _ :: _ =>
      lines <- render_lines tab_events ;;
      Ok (join nl lines)
  end.

(** [s.split("\n")]. *)
Fixpoint split_lines (s : string) : list string :=
  match s with
  | EmptyString => [EmptyString]
  | String c s' =>
      if Ascii.eqb c (ascii_of_nat 10) then EmptyString :: split_lines s'
      else match split_lines s' with
           | l :: ls => String c l :: ls
           | [] => [String c EmptyString]
           end
  end.

(** ** The demo of the module's test harness *)

Definition demo_note (t0 t1 : float) (m : Z) : NoteEvent.t :=
  NoteEvent.mk t0 t1 m f_1_0.

Definition demo_notes : list NoteEvent.t :=
  [ demo_note (b64 0 0) (b64 1 (-1)) 69;
    demo_note (b64 1 (-1)) (b64 1 0) 71;
    demo_note (b64 1 0) (b64 3 (-1)) 72;
    demo_note (b64 3 (-1)) (b64 2 0) 74 ]%Z.

Local Close Scope string_scope.

(** * Vocabulary of the properties *)

(** ** Orders

    [SFcompare] is the lexicographic order of a rank made of the sign class,
    the exponent and the mantissa; a NaN has no rank. *)

Definition lex3 (x y : Z * Z * Z) : comparison :=
  let '(x1, x2, x3) := x in
  let '(y1, y2, y3) := y in
  match x1 ?= y1 with
  | Eq => match x2 ?= y2 with
          | Eq => x3 ?= y3
          | c => c
          end
  | c => c
  end.

Definition lex3_lt (x y : Z * Z * Z) : Prop :=
  let '(x1, x2, x3) := x in
  let '(y1, y2, y3) := y in
  x1 < y1 \/ (x1 = y1 /\ (x2 < y2 \/ (x2 = y2 /\ x3 < y3))).

Definition frank (x : float) : option (Z * Z * Z) :=
  match x with
  | S754_nan => None
  | S754_infinity true => Some (-2, 0, 0)
  | S754_finite true m e => Some (-1, - e, Zneg m)
  | S754_zero _ => Some (0, 0, 0)
  | S754_finite false m e => Some (1, e, Zpos m)
  | S754_infinity false => Some (2, 0, 0)
  end.

(** [x] is not after [y] in the order of the keys. *)
Definition key_le {A K : Type} (ltb : K -> K -> bool) (key : A -> K)
    (x y : A) : Prop :=
  ltb (key y) (key x) = false.

(** [a] has a key equal to [k]: neither is smaller. *)
Definition same_key {A K : Type} (ltb : K -> K -> bool) (key : A -> K)
    (k : K) (a : A) : bool :=
  negb (ltb (key a) k) && negb (ltb k (key a)).

(** [r], with key [kr], stands at the place [l1 ++ r :: l2] of its list: no
    item has a smaller key, and no earlier item has an equal one. *)
Definition first_least {A K : Type} (ltb eqb : K -> K -> bool)
    (key : A -> result K) (l1 : list A) (r : A) (kr : K) (l2 : list A)
    : Prop :=
  key r = Ok kr /\
  (forall x k, In x l1 -> key x = Ok k ->
               ltb k kr = false /\ eqb k kr = false) /\
  (forall x k, In x l2 -> key x = Ok k -> ltb k kr = false).

(** ** Candidates and positions *)

Definition in_fret_range (fret : Z) : bool := (0 <=? fret) && (fret <=? MAX_FRET).

Definition candidate_on (midi : Z) (item : Z * Z) : list (Z * Z) :=
  if in_fret_range (midi - snd item) then [(fst item, midi - snd item)] else [].

(** The positions of the data model: a string of the instrument and a fret
    up to the ceiling. *)
Definition valid_position (string fret : Z) : Prop :=
  1 <= string <= 4 /\ 0 <= fret <= MAX_FRET.

Definition prev_ok (prev : option TabEvent.t) : Prop :=
  match prev with
  | None => True
  | Some p => valid_position (TabEvent.string p) (TabEvent.fret p)
  end.

(** ** Costs *)

(** Zero, a positive number or plus infinity. *)
Definition is_nonneg (x : float) : bool :=
  match x with
  | S754_nan => false
  | S754_zero s | S754_infinity s | S754_finite s _ _ => negb s
  end.

(** The cost of the specification, in exact arithmetic. *)
Definition cost (prev : TabEvent.t) (sf : Z * Z) : Q :=
  (inject_Z (Z.abs (snd sf - TabEvent.fret prev)) * 1 +
   inject_Z (Z.abs (fst sf - TabEvent.string prev)) * (7 # 10))%Q.

(** [score] only depends on the two distances. *)
Definition weighted (dist_fret dist_string : Z) : result float :=
  x <- float_of_int dist_fret ;;
  y <- float_of_int dist_string ;;
  Ok (fadd (fmul x f_1_0) (fmul y f_0_7)).

Definition Zrange (n : nat) : list Z := map Z.of_nat (seq 0 n).

(** All pairs of a fret distance up to 20 and a string distance up to 3. *)
Definition distances : list (Z * Z) := list_prod (Zrange 21) (Zrange 4).

(** On those distances no conversion overflows, no cost is a NaN, and the
    binary64 costs compare as the exact costs [dist_fret + 0.7 * dist_string]
    do (here multiplied by ten). *)
Definition check_pair (e e' : Z * Z * result float) : bool :=
  match snd e, snd e' with
  | Ok k, Ok k' =>
      negb (is_nan k) &&
      Bool.eqb (fltb k k')
               (10 * fst (fst e) + 7 * snd (fst e)
                <? 10 * fst (fst e') + 7 * snd (fst e'))
  | _, _ => false
  end.

Definition check_distances : bool :=
  let table := map (fun d => (d, weighted (fst d) (snd d))) distances in
  forallb (fun e => forallb (check_pair e) table) table.

(** ** Notes and events *)

(** A note that some string can sound within the fret ceiling. *)
Definition playable (n : NoteEvent.t) : bool :=
  match candidates_for_midi (NoteEvent.midi n) with
  | [] => false
  | _ :: _ => true
  end.

(** [t] is note [n] placed on one of its candidates, times and pitch copied. *)
Definition placed (n : NoteEvent.t) (t : TabEvent.t) : Prop :=
  TabEvent.start_time t = NoteEvent.start_time n /\
  TabEvent.end_time t = NoteEvent.end_time n /\
  TabEvent.midi t = NoteEvent.midi n /\
  In (TabEvent.string t, TabEvent.fret t)
     (candidates_for_midi (NoteEvent.midi n)).

(** Two notes that differ at most in their confidence. *)
Definition same_but_confidence (a b : NoteEvent.t) : Prop :=
  NoteEvent.start_time a = NoteEvent.start_time b /\
  NoteEvent.end_time a = NoteEvent.end_time b /\
  NoteEvent.midi a = NoteEvent.midi b.

(** ** Text *)

(** No line break in a string. *)
Fixpoint no_nl (s : string) : bool :=
  match s with
  | EmptyString => true
  | String c s' => negb (Ascii.eqb c (ascii_of_nat 10)) && no_nl s'
  end.

(** The character of the digit [d], for [0 <= d <= 9]. *)
Definition digit (d : Z) : ascii := ascii_of_N (48 + Z.to_N d).

(** The chunk of string [s] in the column of event [ev], as [chunk] returns
    it when it returns. *)
Definition chunk_text (s : Z) (ev : TabEvent.t) : string :=
  if s =? TabEvent.string ev then
    let fret_txt := numeral (TabEvent.fret ev) in
    if Nat.eqb (String.length fret_txt) 1 then String "-" fret_txt
    else if Nat.leb 2 (String.length fret_txt) then last_two fret_txt
    else fret_txt
  else "--"%string.

(** An event whose fret [str] converts, when it is on a string of the tab;
    the fret of an event on no string of the tab is never converted. *)
Definition printable (ev : TabEvent.t) : Prop :=
  1 <= TabEvent.string ev <= 4 ->
  Z.abs (TabEvent.fret ev) < 10 ^ max_str_digits.

(** The four lines of the events [l], taken in that order. *)
Definition text_lines (l : list TabEvent.t) : list string :=
  map (fun '(label, s) =>
         (label ++ join "" (map (chunk_text s) l) ++ "|")%string)
      [("E|"%string, 1); ("A|"%string, 2); ("D|"%string, 3); ("G|"%string, 4)].

(** ** Further vocabulary: the resolver and the tab as a whole *)

(** The position the first note of pitch [midi] gets: the highest-pitched
    string that reaches it. *)
Definition first_position (midi : Z) : Z * Z :=
  if midi <? 62 then (4, midi - 55)
  else if midi <? 69 then (3, midi - 62)
  else if midi <? 76 then (2, midi - 69)
  else (1, midi - 76).

(** [t] is a best choice after [prev]: with no previous position, the least
    fret and then the least string; otherwise a least exact cost. *)
Definition best_from (prev : option TabEvent.t) (t : TabEvent.t) : Prop :=
  let here := (TabEvent.string t, TabEvent.fret t) in
  In here (candidates_for_midi (TabEvent.midi t)) /\
  match prev with
  | None =>
      forall s f, In (s, f) (candidates_for_midi (TabEvent.midi t)) ->
        TabEvent.fret t <= f /\ (f = TabEvent.fret t -> TabEvent.string t <= s)
  | Some p =>
      forall c', In c' (candidates_for_midi (TabEvent.midi t)) ->
        (cost p here <= cost p c')%Q
  end.

(** Every event is a best choice after the event before it. *)
Fixpoint chain_from (prev : option TabEvent.t) (l : list TabEvent.t) : Prop :=
  match l with
  | [] => True
  | t :: l' => best_from prev t /\ chain_from (Some t) l'
  end.

(** What an event keeps of its note. *)
Definition note_origin (n : NoteEvent.t) : float * float * Z :=
  (NoteEvent.start_time n, NoteEvent.end_time n, NoteEvent.midi n).

Definition tab_origin (t : TabEvent.t) : float * float * Z :=
  (TabEvent.start_time t, TabEvent.end_time t, TabEvent.midi t).

(** [n] copies of the fill chunk. *)
Definition dashes (n : nat) : string := join "" (repeat "--"%string n).

(** A numeral left-padded with ['-'] to two characters. *)
Definition pad2 (fret : Z) : string :=
  if fret <? 10 then String "-" (numeral fret) else numeral fret.

(** What string [s] shows in the column of an event of the data model. *)
Definition cell_of (s : Z) (t : TabEvent.t) : string :=
  if s =? TabEvent.string t then pad2 (TabEvent.fret t) else "--"%string.

(** The line of string [s] with one column per event of [out], in order. *)
Definition tab_line (label : string) (s : Z) (out : list TabEvent.t) : string :=
  (label ++ join "" (map (cell_of s) out) ++ "|")%string.

(** The checks of the exhaustive proofs over the pitches and the frets. *)
Definition check_first_position (midi : Z) : bool :=
  match choose_position midi None with
  | Ok (Some (s, f)) =>
      (s =? fst (first_position midi)) && (f =? snd (first_position midi))
  | _ => false
  end.

Definition check_numeral_length (fret : Z) : bool :=
  Nat.eqb (String.length (numeral fret)) (if fret <? 10 then 1 else 2).

Definition check_pad2_differs (f f' : Z) : bool :=
  (f =? f') || negb (String.eqb (pad2 f) (pad2 f')).

(** ** Sample inputs *)

Definition demo_prev : TabEvent.t :=
  TabEvent.mk (b64 0 0) (b64 1 (-1)) 2 0 69.

(** Pitch 40 is below the lowest open string, between two playable notes. *)
Definition notes_with_gap : list NoteEvent.t :=
  [ demo_note (b64 0 0) (b64 1 (-1)) 69;
    demo_note (b64 1 (-1)) (b64 1 0) 40;
    demo_note (b64 1 0) (b64 3 (-1)) 71 ].

(** Two notes at time 0.5 given before a note at time 0. *)
Definition notes_unsorted : list NoteEvent.t :=
  [ demo_note (b64 1 (-1)) (b64 1 0) 71;
    demo_note (b64 1 (-1)) (b64 1 0) 74;
    demo_note (b64 0 0) (b64 1 (-1)) 69 ].

(** An event with a fret of four digits, and one with a fret of 4301
    digits. *)
Definition long_fret : TabEvent.t :=
  TabEvent.mk (b64 0 0) (b64 1 (-1)) 1 1234 1310.

Definition huge_fret : TabEvent.t :=
  TabEvent.mk (b64 0 0) (b64 1 (-1)) 1 (10 ^ 4300) 0.

(** A previous position so far up the neck that the three costs of pitch 69
    round to the same binary64 number. *)
Definition far_prev : TabEvent.t :=
  TabEvent.mk (b64 0 0) (b64 1 (-1)) 2 (2 ^ 60) (69 + 2 ^ 60).

(** * Properties *)

(** ** The literals and the conversion

    [1.0] is exact; [0.7] is the binary64 number nearest to 7/10, the one the
    correctly rounded division of 7 by 10 gives, within half a unit in the
    last place; an [int] from [2^1024 - 2^970] on does not convert. *)

Example float_literals :
  f_1_0 = b64 1 0 /\
  f_0_7 = SFdiv prec emax (b64 7 0) (b64 10 0) /\
  valid_binary prec emax f_0_7 = true /\
  Z.abs (10 * 6305039478318694 - 7 * 2 ^ 53) <= 5.
Proof. repeat split; vm_compute; congruence. Qed.

Example float_of_int_limits :
  float_of_int 3 = Ok (b64 3 0) /\
  float_of_int (2 ^ 1024 - 2 ^ 970 - 1) = Ok (SFmax_float prec emax) /\
  float_of_int (2 ^ 1024 - 2 ^ 970) = Raise OverflowError.
Proof. repeat split; vm_compute; reflexivity. Qed.

(** ** The order on floats *)

Lemma lex3_cases x y :
  (lex3 x y = Lt /\ lex3_lt x y) \/
  (lex3 x y = Eq /\ x = y) \/
  (lex3 x y = Gt /\ lex3_lt y x).
Proof.
  destruct x as [[x1 x2] x3], y as [[y1 y2] y3]; unfold lex3, lex3_lt.
  destruct (Z.compare_spec x1 y1); [subst | left; split; [reflexivity | lia]
                                   | right; right; split; [reflexivity | lia]].
  destruct (Z.compare_spec x2 y2); [subst | left; split; [reflexivity | lia]
                                   | right; right; split; [reflexivity | lia]].
  destruct (Z.compare_spec x3 y3); [subst | left; split; [reflexivity | lia]
                                   | right; right; split; [reflexivity | lia]].
  right; left; split; reflexivity.
Qed.

Lemma lex3_lt_irrefl x : ~ lex3_lt x x.
Proof. destruct x as [[x1 x2] x3]; unfold lex3_lt; lia. Qed.

Lemma lex3_lt_trans x y z : lex3_lt x y -> lex3_lt y z -> lex3_lt x z.
Proof.
  destruct x as [[x1 x2] x3], y as [[y1 y2] y3], z as [[z1 z2] z3].
  unfold lex3_lt; lia.
Qed.

Lemma lex3_Lt_iff x y : lex3 x y = Lt <-> lex3_lt x y.
Proof.
  destruct (lex3_cases x y) as [[E H] | [[E H] | [E H]]]; rewrite E;
    split; intro G; try discriminate; try assumption; try reflexivity.
  - subst; elim (lex3_lt_irrefl _ G).
  - elim (lex3_lt_irrefl _ (lex3_lt_trans _ _ _ G H)).
Qed.

Lemma lex3_Eq_iff x y : lex3 x y = Eq <-> x = y.
Proof.
  destruct (lex3_cases x y) as [[E H] | [[E H] | [E H]]]; rewrite E;
    split; intro G; try discriminate; try assumption; try reflexivity;
    subst; elim (lex3_lt_irrefl _ H).
Qed.

Lemma lex3_Gt_iff x y : lex3 x y = Gt <-> lex3_lt y x.
Proof.
  destruct (lex3_cases x y) as [[E H] | [[E H] | [E H]]]; rewrite E;
    split; intro G; try discriminate; try assumption; try reflexivity.
  - elim (lex3_lt_irrefl _ (lex3_lt_trans _ _ _ G H)).
  - subst; elim (lex3_lt_irrefl _ G).
Qed.

Lemma SFcompare_rank a b :
  SFcompare a b =
  match frank a, frank b with
  | Some x, Some y => Some (lex3 x y)
  | _, _ => None
  end.
Proof.
  destruct a as [sa | sa | | sa ma ea], b as [sb | sb | | sb mb eb];
    try destruct sa; try destruct sb; try reflexivity; simpl.
  rewrite Z.compare_opp, (Z.compare_antisym ea eb).
  destruct (ea ?= eb); reflexivity.
Qed.

Lemma frank_nan x : frank x = None <-> is_nan x = true.
Proof.
  destruct x as [s | s | | s m e]; try destruct s; simpl;
    split; intro H; try discriminate; reflexivity.
Qed.

(** [fltb], [feqb] and [fleb] in terms of ranks. *)
Lemma fltb_rank a b :
  fltb a b = true <->
  exists x y, frank a = Some x /\ frank b = Some y /\ lex3_lt x y.
Proof.
  unfold fltb, SFltb; rewrite SFcompare_rank.
  destruct (frank a) as [x |], (frank b) as [y |].
  - destruct (lex3_cases x y) as [[E H] | [[E H] | [E H]]]; rewrite E; split.
    + intros _; exists x, y; auto.
    + reflexivity.
    + discriminate.
    + intros (x' & y' & [= <-] & [= <-] & L); subst;
        elim (lex3_lt_irrefl _ L).
    + discriminate.
    + intros (x' & y' & [= <-] & [= <-] & L);
        elim (lex3_lt_irrefl _ (lex3_lt_trans _ _ _ L H)).
  - split; [discriminate | intros (? & ? & _ & [=] & _)].
  - split; [discriminate | intros (? & ? & [=] & _)].
  - split; [discriminate | intros (? & ? & [=] & _)].
Qed.

Lemma feqb_rank a b :
  feqb a b = true <-> exists x, frank a = Some x /\ frank b = Some x.
Proof.
  unfold feqb, SFeqb; rewrite SFcompare_rank.
  destruct (frank a) as [x |], (frank b) as [y |].
  - destruct (lex3_cases x y) as [[E H] | [[E H] | [E H]]]; rewrite E; split;
      try discriminate.
    + intros (z & [= <-] & [= <-]); elim (lex3_lt_irrefl _ H).
    + intros _; subst; eauto.
    + reflexivity.
    + intros (z & [= <-] & [= <-]); elim (lex3_lt_irrefl _ H).
  - split; [discriminate | intros (? & _ & [=])].
  - split; [discriminate | intros (? & [=] & _)].
  - split; [discriminate | intros (? & [=] & _)].
Qed.

Lemma fleb_fltb_feqb a b : fleb a b = fltb a b || feqb a b.
Proof.
  unfold fleb, fltb, feqb, SFleb, SFltb, SFeqb.
  destruct (SFcompare a b) as [[ | | ] |]; reflexivity.
Qed.

Lemma fltb_trans a b c :
  fltb a b = true -> fltb b c = true -> fltb a c = true.
Proof.
  rewrite !fltb_rank.
  intros (x & y & Ha & Hb & L1) (y' & z & Hb' & Hc & L2).
  rewrite Hb in Hb'; injection Hb' as <-.
  exists x, z; eauto using lex3_lt_trans.
Qed.

Lemma fltb_asym a b : fltb a b = true -> fltb b a = false.
Proof.
  intros H; destruct (fltb b a) eqn:E; [| reflexivity].
  pose proof (fltb_trans _ _ _ H E) as R.
  apply fltb_rank in R; destruct R as (x & y & Hx & Hy & L).
  rewrite Hx in Hy; injection Hy as <-; elim (lex3_lt_irrefl _ L).
Qed.

Lemma feqb_fltb_trans a b c :
  feqb a b = true -> fltb b c = true -> fltb a c = true.
Proof.
  rewrite feqb_rank, !fltb_rank.
  intros (x & Ha & Hb) (y & z & Hb' & Hc & L).
  rewrite Hb in Hb'; injection Hb' as <-.
  exists x, z; auto.
Qed.

Lemma fltb_not_feqb a b : fltb a b = true -> feqb b a = false.
Proof.
  intros H; destruct (feqb b a) eqn:E; [| reflexivity].
  pose proof (feqb_fltb_trans _ _ _ E H) as R.
  apply fltb_rank in R; destruct R as (x & y & Hx & Hy & L).
  rewrite Hx in Hy; injection Hy as <-; elim (lex3_lt_irrefl _ L).
Qed.

Lemma feqb_sym a b : feqb a b = feqb b a.
Proof.
  apply eq_true_iff_eq; rewrite !feqb_rank; split; intros (x & H1 & H2); eauto.
Qed.

(** Without NaN the order is total. *)
Lemma fltb_false_fleb a b :
  is_nan a = false -> is_nan b = false -> fltb b a = false -> fleb a b = true.
Proof.
  intros Na Nb H.
  destruct (frank a) as [x |] eqn:Ha;
    [| apply frank_nan in Ha; congruence].
  destruct (frank b) as [y |] eqn:Hb;
    [| apply frank_nan in Hb; congruence].
  rewrite fleb_fltb_feqb; apply orb_true_iff.
  destruct (lex3_cases x y) as [[_ L] | [[_ L] | [_ L]]].
  - left; apply fltb_rank; eauto.
  - right; apply feqb_rank; subst; eauto.
  - assert (fltb b a = true) by (apply fltb_rank; eauto); congruence.
Qed.

Lemma fleb_fltb_false a b : fleb a b = true -> fltb b a = false.
Proof.
  rewrite fleb_fltb_feqb; intros H; apply orb_true_iff in H as [H | H].
  - now apply fltb_asym.
  - destruct (fltb b a) eqn:E; [| reflexivity].
    apply fltb_not_feqb in E; congruence.
Qed.

Lemma fleb_not_nan a b : fleb a b = true -> is_nan a = false /\ is_nan b = false.
Proof.
  destruct a as [s | s | | s m e], b as [s' | s' | | s' m' e'];
    simpl; auto; discriminate.
Qed.

Lemma fleb_trans a b c :
  fleb a b = true -> fleb b c = true -> fleb a c = true.
Proof.
  intros H1 H2.
  destruct (fleb_not_nan _ _ H1) as [Na _], (fleb_not_nan _ _ H2) as [_ Nc].
  apply fltb_false_fleb; trivial.
  destruct (fltb c a) eqn:E; [| reflexivity].
  rewrite fleb_fltb_feqb in H1, H2.
  apply orb_true_iff in H1 as [H1 | H1], H2 as [H2 | H2].
  - pose proof (fltb_asym _ _ (fltb_trans _ _ _ H1 H2)); congruence.
  - pose proof (fltb_asym _ _ (feqb_fltb_trans _ _ _ H2 E)); congruence.
  - pose proof (fltb_asym _ _ (feqb_fltb_trans _ _ _ H1 H2)); congruence.
  - pose proof (feqb_fltb_trans _ _ _ H1 (feqb_fltb_trans _ _ _ H2 E)) as R.
    pose proof (fltb_asym _ _ R); congruence.
Qed.

(** ** [sorted] is a stable sort *)

Section SortedFacts.
Context {A K : Type}.
Variable ltb : K -> K -> bool.
Variable key : A -> K.

Lemma insert_sorted_perm x l :
  Permutation (insert_sorted ltb key x l) (x :: l).
Proof.
  induction l as [| y l IH]; simpl; [reflexivity |].
  destruct (ltb (key y) (key x)); [| reflexivity].
  rewrite IH; apply perm_swap.
Qed.

Lemma sorted_perm l : Permutation (sorted ltb key l) l.
Proof.
  induction l as [| x l IH]; simpl; [reflexivity |].
  rewrite insert_sorted_perm; now constructor.
Qed.

Lemma sorted_length l :
  List.length (sorted ltb key l) = List.length l.
Proof. apply Permutation_length, sorted_perm. Qed.

Lemma sorted_In x l : In x (sorted ltb key l) <-> In x l.
Proof.
  split; apply Permutation_in;
    [apply sorted_perm | apply Permutation_sym, sorted_perm].
Qed.

(** Elements of one class of keys keep their input order. *)
Lemma insert_sorted_filter (P : A -> bool) x l :
  (forall b, In b l -> P x = true -> P b = true ->
             ltb (key b) (key x) = false) ->
  filter P (insert_sorted ltb key x l) = filter P (x :: l).
Proof.
  induction l as [| y l IH]; intros HP; simpl; [reflexivity |].
  destruct (ltb (key y) (key x)) eqn:E; [| reflexivity].
  simpl in *; rewrite IH by (intros; apply HP; auto).
  destruct (P x) eqn:Px, (P y) eqn:Py; try reflexivity.
  rewrite (HP y (or_introl eq_refl) eq_refl Py) in E; discriminate.
Qed.

Lemma sorted_filter (P : A -> bool) l :
  (forall a b, In a l -> In b l -> P a = true -> P b = true ->
               ltb (key b) (key a) = false) ->
  filter P (sorted ltb key l) = filter P l.
Proof.
  induction l as [| x l IH]; intros HP; simpl; [reflexivity |].
  rewrite insert_sorted_filter.
  - simpl; rewrite IH; [reflexivity |].
    intros a b Ha Hb; apply HP; now right.
  - intros b Hb; apply HP; [now left | right].
    now apply (proj1 (sorted_In _ _)).
Qed.

(** The result is ordered, as soon as [<] is asymmetric and its negation
    is transitive on the keys present. *)
Variable good : K -> Prop.
Hypothesis ltb_asym : forall a b, ltb a b = true -> ltb b a = false.
Hypothesis nlt_trans : forall a b c, good a -> good b -> good c ->
  ltb b a = false -> ltb c b = false -> ltb c a = false.

Lemma insert_sorted_ordered x l :
  good (key x) -> Forall (fun y => good (key y)) l ->
  StronglySorted (key_le ltb key) l ->
  StronglySorted (key_le ltb key) (insert_sorted ltb key x l).
Proof.
  intros Gx Gl S; induction S as [| y l S IH F]; simpl.
  - repeat constructor.
  - inversion Gl as [| ? ? Gy Gl']; subst.
    destruct (ltb (key y) (key x)) eqn:E.
    + constructor; [now apply IH |].
      apply Forall_forall; intros z Hz.
      apply (Permutation_in _ (insert_sorted_perm x l)) in Hz.
      destruct Hz as [<- | Hz].
      * now apply ltb_asym.
      * rewrite Forall_forall in F; now apply F.
    + constructor; [now constructor |].
      constructor; [exact E |].
      rewrite Forall_forall in F, Gl' |- *; intros z Hz.
      apply (nlt_trans (key x) (key y) (key z)); auto.
      now apply F.
Qed.

Lemma sorted_ordered l :
  Forall (fun y => good (key y)) l -> StronglySorted (key_le ltb key) (sorted ltb key l).
Proof.
  induction 1 as [| x l Gx Gl IH]; simpl; [constructor |].
  apply insert_sorted_ordered; trivial.
  apply Forall_forall; intros y Hy; apply (proj1 (sorted_In _ _)) in Hy.
  rewrite Forall_forall in Gl; auto.
Qed.

(** The first element of the result is a least one. *)
Lemma sorted_head_least l first rest :
  Forall (fun y => good (key y)) l ->
  sorted ltb key l = first :: rest ->
  In first l /\ forall y, In y l -> y = first \/ (key_le ltb key) first y.
Proof.
  intros G E; pose proof (sorted_ordered l G) as S; rewrite E in S.
  split; [apply sorted_In; rewrite E; now left |].
  intros y Hy; apply (proj2 (sorted_In _ _)) in Hy; rewrite E in Hy.
  destruct Hy as [-> | Hy]; [now left | right].
  inversion S as [| ? ? _ F]; subst.
  rewrite Forall_forall in F; auto.
Qed.
(** An ordered list is determined by the order of the items inside each
    class of equal keys. *)
Lemma stable_sort_unique l1 : forall l2,
  StronglySorted (key_le ltb key) l1 -> StronglySorted (key_le ltb key) l2 ->
  (forall x, In x l1 \/ In x l2 ->
     filter (same_key ltb key (key x)) l1 = filter (same_key ltb key (key x)) l2) ->
  l1 = l2.
Proof.
  assert (R : forall x, same_key ltb key (key x) x = true).
  { intros x; unfold same_key.
    destruct (ltb (key x) (key x)) eqn:E; [| reflexivity].
    now rewrite (ltb_asym _ _ E) in E. }
  induction l1 as [| x l1 IH]; intros [| y l2] S1 S2 H.
  - reflexivity.
  - specialize (H y (or_intror (or_introl eq_refl))).
    simpl in H; rewrite R in H; discriminate.
  - specialize (H x (or_introl (or_introl eq_refl))).
    simpl in H; rewrite R in H; discriminate.
  - inversion S1 as [| ? ? S1' F1]; inversion S2 as [| ? ? S2' F2]; subst.
    rewrite Forall_forall in F1, F2.
    assert (E : x = y).
    { pose proof (H x (or_introl (or_introl eq_refl))) as Hx.
      pose proof (H y (or_intror (or_introl eq_refl))) as Hy.
      simpl in Hx, Hy; rewrite R in Hx, Hy.
      destruct (same_key ltb key (key x) y) eqn:Pxy; [congruence |].
      assert (Pyx : same_key ltb key (key y) x = false).
      { unfold same_key in *; now rewrite andb_comm. }
      rewrite Pyx in Hy.
      assert (Ix : In x l2).
      { assert (I : In x (filter (same_key ltb key (key x)) l2))
          by (rewrite <- Hx; now left).
        now apply filter_In in I. }
      assert (Iy : In y l1).
      { assert (I : In y (filter (same_key ltb key (key y)) l1))
          by (rewrite Hy; now left).
        now apply filter_In in I. }
      pose proof (F1 y Iy) as L1; pose proof (F2 x Ix) as L2.
      unfold key_le, same_key in *; rewrite L1, L2 in Pxy; discriminate. }
    subst y; f_equal; apply IH; trivial.
    intros z Hz.
    assert (Hz' : In z (x :: l1) \/ In z (x :: l2)) by (simpl; tauto).
    specialize (H z Hz'); simpl in H.
    destruct (same_key ltb key (key z) x); congruence.
Qed.

(** So [sorted] is the only stable sort: a permutation of the input that is
    ordered and keeps the input order inside each class of equal keys. *)
Lemma sorted_unique l l' :
  Forall (fun y => good (key y)) l ->
  Permutation l' l ->
  StronglySorted (key_le ltb key) l' ->
  (forall x, In x l ->
     filter (same_key ltb key (key x)) l' = filter (same_key ltb key (key x)) l) ->
  l' = sorted ltb key l.
Proof.
  intros G Hp S H; apply stable_sort_unique; trivial.
  - now apply sorted_ordered.
  - assert (I : forall x, In x l' \/ In x (sorted ltb key l) -> In x l).
    { intros x [Hx | Hx]; [exact (Permutation_in _ Hp Hx) |].
      now apply (proj1 (sorted_In _ _)). }
    intros x Hx; rewrite (H x (I x Hx)); symmetry; apply sorted_filter.
    rewrite Forall_forall in G.
    intros a b Ha Hb Pa Pb; unfold same_key in Pa, Pb.
    apply andb_true_iff in Pa as [_ Pa], Pb as [Pb _].
    apply negb_true_iff in Pa, Pb.
    apply (nlt_trans (key a) (key x) (key b)); auto.
Qed.
End SortedFacts.

(** Sorting commutes with a relation that preserves keys. *)
Lemma sorted_Forall2 {A B K : Type} (ltb : K -> K -> bool)
    (keyA : A -> K) (keyB : B -> K) (R : A -> B -> Prop) l l' :
  (forall a b, R a b -> keyA a = keyB b) ->
  Forall2 R l l' ->
  Forall2 R (sorted ltb keyA l) (sorted ltb keyB l').
Proof.
  intros HR; induction 1 as [| a b l l' Hab Hl IH]; simpl; [constructor |].
  induction IH as [| a' b' s s' Hab' Hs IHs]; simpl.
  - repeat constructor; assumption.
  - rewrite (HR _ _ Hab), (HR _ _ Hab').
    destruct (ltb (keyB b') (keyB b)); constructor; auto.
Qed.

(** ** [min] returns the first of the least items *)

Section MinFacts.
Context {A K : Type}.
Variable ltb eqb : K -> K -> bool.
Variable key : A -> result K.

Hypothesis ltb_trans : forall a b c,
  ltb a b = true -> ltb b c = true -> ltb a c = true.
Hypothesis ltb_asym : forall a b, ltb a b = true -> ltb b a = false.
Hypothesis eqb_ltb : forall a b c,
  eqb a b = true -> ltb b c = true -> ltb a c = true.
Hypothesis ltb_not_eqb : forall a b, ltb a b = true -> eqb b a = false.

Lemma min_loop_first_least l : forall best best_key,
  key best = Ok best_key ->
  (forall x, In x l -> exists k, key x = Ok k) ->
  exists r kr l1 l2,
    min_loop ltb key best best_key l = Ok r /\
    best :: l = l1 ++ r :: l2 /\
    first_least ltb eqb key l1 r kr l2 /\
    ((l1 = [] /\ kr = best_key) \/ (l1 <> [] /\ ltb kr best_key = true)).
Proof.
  induction l as [| x l IH]; intros best bk Hb Hl; simpl.
  - exists best, bk, [], []; split; [reflexivity |].
    split; [reflexivity |]. split; [| now left].
    split; [assumption |]; split; intros ? ? [].
  - destruct (Hl x (or_introl eq_refl)) as [k Hk]; rewrite Hk; simpl.
    assert (Hl' : forall y, In y l -> exists k, key y = Ok k)
      by (intros; apply Hl; now right).
    destruct (ltb k bk) eqn:E.
    + destruct (IH x k Hk Hl')
        as (r & kr & l1 & l2 & Hr & Hd & (Kr & F1 & F2) & Hc).
      assert (L : ltb kr bk = true)
        by (destruct Hc as [[_ ->] | [_ Hc]]; eauto).
      exists r, kr, (best :: l1), l2; split; [assumption |].
      split; [simpl; now rewrite Hd |].
      split; [| right; split; [discriminate | assumption]].
      split; [assumption |]; split; [| assumption].
      intros y ky [<- | Hy] Hy'; [| eapply F1; eauto].
      assert (ky = bk) by congruence; subst; auto.
    + destruct (IH best bk Hb Hl')
        as (r & kr & l1 & l2 & Hr & Hd & (Kr & F1 & F2) & Hc).
      destruct Hc as [[-> ->] | [Hn L]].
      * simpl in Hd; injection Hd as <- <-.
        exists best, bk, [], (x :: l); split; [assumption |].
        split; [reflexivity |]. split; [| now left].
        split; [assumption |]; split; [intros ? ? [] |].
        intros y ky [<- | Hy] Hy'; [congruence | eauto].
      * destruct l1 as [| b l1]; [congruence |].
        simpl in Hd; injection Hd as <- ->.
        exists r, kr, (best :: x :: l1), l2; split; [assumption |].
        split; [reflexivity |].
        split; [| right; split; [discriminate | assumption]].
        split; [assumption |]; split; [| assumption].
        intros y ky [<- | [<- | Hy]] Hy'.
        -- eapply F1; [now left | eassumption].
        -- assert (ky = k) by congruence; subst; split.
           ++ destruct (ltb k kr) eqn:E'; [| reflexivity].
              rewrite (ltb_trans _ _ _ E' L) in E; discriminate.
           ++ destruct (eqb k kr) eqn:E'; [| reflexivity].
              rewrite (eqb_ltb _ _ _ E' L) in E; discriminate.
        -- eapply F1; [right; eassumption | eassumption].
Qed.

Lemma min_by_first_least l :
  l <> [] ->
  (forall x, In x l -> exists k, key x = Ok k) ->
  exists r kr l1 l2,
    min_by ltb key l = Ok r /\ l = l1 ++ r :: l2 /\ first_least ltb eqb key l1 r kr l2.
Proof.
  destruct l as [| x l]; [congruence | intros _ Hl]; simpl.
  destruct (Hl x (or_introl eq_refl)) as [k Hk]; rewrite Hk; simpl.
  destruct (min_loop_first_least l x k Hk) as (r & kr & l1 & l2 & H1 & H2 & H3 & _);
    [intros; apply Hl; now right |].
  exists r, kr, l1, l2; auto.
Qed.
End MinFacts.

(** ** Candidate generation *)

Lemma candidates_fold midi tuning : forall acc,
  fold_left (candidates_step midi) tuning acc =
  acc ++ flat_map (candidate_on midi) tuning.
Proof.
  induction tuning as [| [s o] tuning IH]; intros acc; simpl.
  - now rewrite app_nil_r.
  - rewrite IH; unfold candidate_on, in_fret_range; simpl.
    destruct ((0 <=? midi - o) && (midi - o <=? MAX_FRET)); simpl.
    + now rewrite <- app_assoc.
    + reflexivity.
Qed.

Lemma candidates_for_midi_eq midi :
  candidates_for_midi midi = flat_map (candidate_on midi) MANDOLIN_TUNING.
Proof. unfold candidates_for_midi; now rewrite candidates_fold. Qed.

(** A candidate is a string of the tuning with the fret that sounds the
    pitch on it, when that fret is between 0 and the fret ceiling. *)
Lemma candidates_for_midi_In midi s f :
  In (s, f) (candidates_for_midi midi) <->
  In (s, midi - f) MANDOLIN_TUNING /\ 0 <= f <= MAX_FRET.
Proof.
  rewrite candidates_for_midi_eq, in_flat_map; split.
  - intros ([s' o] & Hin & Hc); unfold candidate_on, in_fret_range in Hc.
    simpl in Hc.
    destruct ((0 <=? midi - o) && (midi - o <=? MAX_FRET)) eqn:E;
      [| destruct Hc].
    destruct Hc as [[= <- <-] | []].
    apply andb_true_iff in E as [E1 E2].
    apply Z.leb_le in E1, E2.
    replace (midi - (midi - o)) with o by lia; auto.
  - intros (Hin & Hf); exists (s, midi - f); split; [assumption |].
    unfold candidate_on, in_fret_range; simpl.
    replace (midi - (midi - f)) with f by lia.
    destruct (Z.leb_spec 0 f), (Z.leb_spec f MAX_FRET); simpl; auto; lia.
Qed.

Lemma tuning_In s o :
  In (s, o) MANDOLIN_TUNING -> dict_get MANDOLIN_TUNING s = Some o /\ 1 <= s <= 4.
Proof.
  simpl; intros [[= <- <-] | [[= <- <-] | [[= <- <-] | [[= <- <-] | []]]]];
    split; (reflexivity || lia).
Qed.

(** Candidates come in the order of the tuning table: string 4 first. *)
Lemma candidates_for_midi_descending midi :
  StronglySorted (fun a b => fst b < fst a) (candidates_for_midi midi).
Proof.
  rewrite candidates_for_midi_eq; unfold candidate_on; simpl.
  repeat match goal with |- context [if ?b then _ else _] => destruct b end;
    simpl; repeat constructor; simpl; lia.
Qed.

Lemma candidates_valid midi s f :
  In (s, f) (candidates_for_midi midi) -> valid_position s f.
Proof.
  intros H; apply candidates_for_midi_In in H as [H ?].
  apply tuning_In in H as [_ ?]; now split.
Qed.

(** ** The order of the sort key of the first note *)

Lemma pair_ltb_asym a b : pair_ltb a b = true -> pair_ltb b a = false.
Proof.
  unfold pair_ltb; destruct a as [a1 a2], b as [b1 b2]; simpl.
  destruct (Z.eqb_spec a1 b1), (Z.eqb_spec b1 a1); try lia;
    intros H; try apply Z.ltb_lt in H; apply Z.ltb_ge; lia.
Qed.

Lemma pair_ltb_nlt_trans a b c :
  pair_ltb b a = false -> pair_ltb c b = false -> pair_ltb c a = false.
Proof.
  unfold pair_ltb; destruct a as [a1 a2], b as [b1 b2], c as [c1 c2]; simpl.
  destruct (Z.eqb_spec b1 a1), (Z.eqb_spec c1 b1), (Z.eqb_spec c1 a1);
    rewrite !Z.ltb_ge; lia.
Qed.

Lemma pair_ltb_false a b :
  pair_ltb b a = false -> fst a < fst b \/ (fst a = fst b /\ snd a <= snd b).
Proof.
  unfold pair_ltb; destruct (Z.eqb_spec (fst b) (fst a));
    rewrite Z.ltb_ge; lia.
Qed.

(** ** The cost on the positions of the data model *)

Lemma score_weighted prev s f :
  score prev (s, f) =
  weighted (Z.abs (f - TabEvent.fret prev)) (Z.abs (s - TabEvent.string prev)).
Proof.
  unfold score, weighted.
  destruct (float_of_int (Z.abs (f - TabEvent.fret prev))); reflexivity.
Qed.

Lemma Zrange_In n x : 0 <= x < Z.of_nat n -> In x (Zrange n).
Proof.
  intros H; unfold Zrange; apply in_map_iff.
  exists (Z.to_nat x); split; [lia |].
  apply in_seq; lia.
Qed.

Lemma check_distances_true : check_distances = true.
Proof. vm_compute; reflexivity. Qed.

Lemma weighted_order df ds df' ds' :
  0 <= df <= 20 -> 0 <= ds <= 3 -> 0 <= df' <= 20 -> 0 <= ds' <= 3 ->
  exists k k',
    weighted df ds = Ok k /\ weighted df' ds' = Ok k' /\
    is_nan k = false /\
    fltb k k' = (10 * df + 7 * ds <? 10 * df' + 7 * ds').
Proof.
  intros H1 H2 H3 H4.
  pose proof check_distances_true as C; unfold check_distances in C.
  rewrite forallb_forall in C.
  assert (I : forall a b, 0 <= a <= 20 -> 0 <= b <= 3 ->
            In (a, b, weighted a b)
               (map (fun d => (d, weighted (fst d) (snd d))) distances)).
  { intros a b Ha Hb; apply in_map_iff; exists (a, b); split; [reflexivity |].
    apply in_prod; apply Zrange_In; simpl; lia. }
  specialize (C _ (I df ds H1 H2)); rewrite forallb_forall in C.
  specialize (C _ (I df' ds' H3 H4)).
  unfold check_pair in C; simpl in C.
  destruct (weighted df ds) as [k |]; [| discriminate].
  destruct (weighted df' ds') as [k' |]; [| discriminate].
  apply andb_true_iff in C as [C1 C2].
  exists k, k'; repeat split; trivial.
  - now apply negb_true_iff.
  - now apply eqb_prop.
Qed.

Lemma cost_le prev c c' :
  (cost prev c <= cost prev c')%Q <->
  10 * Z.abs (snd c - TabEvent.fret prev) + 7 * Z.abs (fst c - TabEvent.string prev)
  <= 10 * Z.abs (snd c' - TabEvent.fret prev) + 7 * Z.abs (fst c' - TabEvent.string prev).
Proof.
  unfold cost, Qle, Qplus, Qmult, inject_Z; cbn [Qnum Qden Pos.mul]; lia.
Qed.

(** ** Costs are never NaN

    The operations of [score] work on floats that are zero or positive, and
    rounding keeps them so. *)

Lemma shr_1_nonneg mrs : 0 <= shr_m mrs -> 0 <= shr_m (shr_1 mrs).
Proof.
  destruct mrs as [m r s]; simpl.
  destruct m as [| [p | p |] | p]; simpl; lia.
Qed.

Lemma iter_pos_invariant {A : Type} (P : A -> Prop) (f : A -> A) :
  (forall x, P x -> P (f x)) -> forall p x, P x -> P (iter_pos f p x).
Proof.
  intros Hf; induction p as [p IH | p IH |]; intros x Hx; simpl; auto.
Qed.

Lemma shr_fexp_nonneg p e m ex l :
  0 <= m -> 0 <= shr_m (fst (shr_fexp p e m ex l)).
Proof.
  intros Hm; unfold shr_fexp, shr.
  assert (H0 : 0 <= shr_m (shr_record_of_loc m l))
    by (destruct l as [| []]; exact Hm).
  destruct (fexp p e (Zdigits2 m + ex) - ex) as [| q | q]; simpl; trivial.
  apply (iter_pos_invariant (fun mrs => 0 <= shr_m mrs)); trivial.
  exact shr_1_nonneg.
Qed.

Lemma round_nearest_even_nonneg m l : 0 <= m -> 0 <= round_nearest_even m l.
Proof.
  intros Hm; destruct l as [| []]; simpl; try lia.
  destruct (Z.even m); lia.
Qed.

Lemma binary_round_aux_nonneg p e mx ex lx :
  0 <= mx -> is_nonneg (binary_round_aux p e false mx ex lx) = true.
Proof.
  intros Hm; unfold binary_round_aux.
  pose proof (shr_fexp_nonneg p e mx ex lx Hm) as H1.
  destruct (shr_fexp p e mx ex lx) as [mrs' e']; simpl in H1.
  pose proof (shr_fexp_nonneg p e _ e' loc_Exact
                (round_nearest_even_nonneg _ (loc_of_shr_record mrs') H1)) as H2.
  destruct (shr_fexp p e (round_nearest_even (shr_m mrs')
              (loc_of_shr_record mrs')) e' loc_Exact) as [mrs'' e''].
  simpl in H2.
  destruct (shr_m mrs'') as [| q | q]; [reflexivity | | lia].
  destruct (e'' <=? e - p); reflexivity.
Qed.

Lemma binary_round_nonneg p e q ex :
  is_nonneg (binary_round p e false q ex) = true.
Proof.
  unfold binary_round.
  destruct (shl_align q ex (fexp p e (Z.pos (digits2_pos q) + ex))) as [mz ez].
  now apply binary_round_aux_nonneg.
Qed.

Lemma binary_normalize_nonneg p e m ex :
  0 <= m -> is_nonneg (binary_normalize p e m ex false) = true.
Proof.
  intros Hm; destruct m as [| q | q]; [reflexivity | | lia].
  apply binary_round_nonneg.
Qed.

Lemma float_of_int_nonneg n x :
  0 <= n -> float_of_int n = Ok x -> is_nonneg x = true.
Proof.
  intros Hn; unfold float_of_int.
  pose proof (binary_normalize_nonneg prec emax n 0 Hn) as H.
  destruct (binary_normalize prec emax n 0 false); intros [= <-]; exact H.
Qed.

Lemma fmul_nonneg x m e :
  is_nonneg x = true -> is_nonneg (fmul x (S754_finite false m e)) = true.
Proof.
  destruct x as [[|] | [|] | | [|] mx ex]; simpl; try discriminate;
    intros _; try reflexivity.
  now apply binary_round_aux_nonneg.
Qed.

Lemma fadd_nonneg x y :
  is_nonneg x = true -> is_nonneg y = true -> is_nonneg (fadd x y) = true.
Proof.
  destruct x as [[|] | [|] | | [|] mx ex], y as [[|] | [|] | | [|] my ey];
    simpl; try discriminate; intros _ _; try reflexivity.
  apply binary_round_nonneg.
Qed.

Lemma is_nonneg_not_nan x : is_nonneg x = true -> is_nan x = false.
Proof. destruct x; simpl; intros H; (reflexivity || discriminate). Qed.

(** A cost that is computed is zero, positive or infinite. *)
Lemma score_not_nan prev c k : score prev c = Ok k -> is_nan k = false.
Proof.
  destruct c as [s f]; rewrite score_weighted; unfold weighted.
  destruct (float_of_int (Z.abs (f - TabEvent.fret prev))) as [x |] eqn:Ex;
    [| discriminate].
  destruct (float_of_int (Z.abs (s - TabEvent.string prev))) as [y |] eqn:Ey;
    [| discriminate].
  simpl; intros [= <-].
  apply float_of_int_nonneg in Ex, Ey; try apply Z.abs_nonneg.
  apply is_nonneg_not_nan, fadd_nonneg; now apply fmul_nonneg.
Qed.

(** ** Position selection *)

Lemma choose_position_unplayable midi prev :
  candidates_for_midi midi = [] -> choose_position midi prev = Ok None.
Proof. unfold choose_position; intros ->; reflexivity. Qed.

(** Without a previous position: lowest fret, then lowest string. *)
Lemma choose_position_first midi :
  candidates_for_midi midi <> [] ->
  exists c,
    choose_position midi None = Ok (Some c) /\
    In c (candidates_for_midi midi) /\
    forall c', In c' (candidates_for_midi midi) ->
      snd c < snd c' \/ (snd c = snd c' /\ fst c <= fst c').
Proof.
  intros Hne; unfold choose_position.
  destruct (candidates_for_midi midi) as [| c0 cs] eqn:E; [congruence |].
  rewrite <- E.
  destruct (sorted pair_ltb (fun sf => (snd sf, fst sf))
              (candidates_for_midi midi)) as [| first rest] eqn:S.
  - apply (f_equal (@List.length _)) in S.
    rewrite sorted_length, E in S; discriminate.
  - exists first.
    destruct (sorted_head_least pair_ltb (fun sf : Z * Z => (snd sf, fst sf))
                (fun _ => True) pair_ltb_asym
                (fun a b c _ _ _ => pair_ltb_nlt_trans a b c)
                (candidates_for_midi midi) first rest) as [I L]; trivial.
    { apply Forall_forall; trivial. }
    repeat split; trivial.
    intros c' Hc'; destruct (L c' Hc') as [-> | Hle]; [lia |].
    apply pair_ltb_false in Hle; exact Hle.
Qed.

(** With a previous position, when no cost overflows: the first of the
    candidates of least binary64 cost. *)
Lemma choose_position_scored midi prev :
  candidates_for_midi midi <> [] ->
  (forall c, In c (candidates_for_midi midi) -> exists k, score prev c = Ok k) ->
  exists c kc l1 l2,
    choose_position midi (Some prev) = Ok (Some c) /\
    candidates_for_midi midi = l1 ++ c :: l2 /\
    first_least fltb feqb (score prev) l1 c kc l2.
Proof.
  intros Hne Hk; unfold choose_position.
  destruct (min_by_first_least fltb feqb (score prev) fltb_trans fltb_asym
              feqb_fltb_trans fltb_not_feqb (candidates_for_midi midi) Hne Hk)
    as (r & kr & l1 & l2 & Hm & Hd & Hf).
  destruct (candidates_for_midi midi) as [| c0 cs] eqn:E; [congruence |].
  rewrite Hm; simpl; exists r, kr, l1, l2; auto.
Qed.

Lemma distance_bounds s f s' f' :
  valid_position s f -> valid_position s' f' ->
  0 <= Z.abs (f' - f) <= 20 /\ 0 <= Z.abs (s' - s) <= 3.
Proof. unfold valid_position, MAX_FRET; lia. Qed.

(** Between two positions of the data model the cost never overflows. *)
Lemma score_valid prev s f :
  valid_position (TabEvent.string prev) (TabEvent.fret prev) ->
  valid_position s f ->
  exists k, score prev (s, f) = Ok k /\ is_nan k = false.
Proof.
  intros Hp Hc; rewrite score_weighted.
  destruct (distance_bounds _ _ _ _ Hp Hc) as [Hf Hs].
  destruct (weighted_order _ _ _ _ Hf Hs Hf Hs) as (k & _ & -> & _ & N & _).
  eauto.
Qed.

(** ... and the binary64 costs are ordered as the exact costs are. *)
Lemma score_order prev c c' k k' :
  valid_position (TabEvent.string prev) (TabEvent.fret prev) ->
  valid_position (fst c) (snd c) -> valid_position (fst c') (snd c') ->
  score prev c = Ok k -> score prev c' = Ok k' ->
  fltb k' k = false ->
  (cost prev c <= cost prev c')%Q /\ fleb k k' = true.
Proof.
  destruct c as [s f], c' as [s' f']; cbn [fst snd].
  intros Hp Hc Hc'; rewrite !score_weighted; intros Hk Hk' L.
  destruct (distance_bounds _ _ _ _ Hp Hc) as [Hf Hs].
  destruct (distance_bounds _ _ _ _ Hp Hc') as [Hf' Hs'].
  destruct (weighted_order _ _ _ _ Hf' Hs' Hf Hs) as (x' & x & E' & E & N' & O).
  destruct (weighted_order _ _ _ _ Hf Hs Hf' Hs') as (y & y' & _ & _ & N & _).
  rewrite Hk in E; rewrite Hk' in E'.
  injection E as <-; injection E' as <-.
  split.
  - apply cost_le; cbn [fst snd]; rewrite L in O.
    symmetry in O; apply Z.ltb_ge in O; lia.
  - apply fltb_false_fleb; trivial.
    destruct (weighted_order _ _ _ _ Hf Hs Hf' Hs') as (z & ? & Ez & _ & Nz & _).
    congruence.
Qed.

(** From the empty memory or from a position of the data model,
    [choose_position] raises nothing and picks one of the candidates. *)
Lemma choose_position_total midi prev :
  prev_ok prev -> candidates_for_midi midi <> [] ->
  exists c, choose_position midi prev = Ok (Some c) /\
            In c (candidates_for_midi midi).
Proof.
  intros Hp Hne; destruct prev as [p |].
  - destruct (choose_position_scored midi p Hne)
      as (c & kc & l1 & l2 & Hc & Hd & _).
    + intros [s f] Hin.
      destruct (score_valid p s f Hp (candidates_valid _ _ _ Hin)) as (k & ? & _).
      eauto.
    + exists c; split; [assumption |].
      rewrite Hd; apply in_elt.
  - destruct (choose_position_first midi Hne) as (c & ? & ? & _); eauto.
Qed.

(** ** The resolver *)

Lemma playable_false n :
  playable n = false -> candidates_for_midi (NoteEvent.midi n) = [].
Proof.
  unfold playable; destruct (candidates_for_midi (NoteEvent.midi n));
    [reflexivity | discriminate].
Qed.

Lemma playable_true n :
  playable n = true -> candidates_for_midi (NoteEvent.midi n) <> [].
Proof.
  unfold playable; destruct (candidates_for_midi (NoteEvent.midi n));
    [discriminate | discriminate].
Qed.

(** A note without candidate changes neither accumulator of the loop. *)
Lemma resolve_loop_skip n rest tab_events prev_tab :
  candidates_for_midi (NoteEvent.midi n) = [] ->
  resolve_loop (n :: rest) tab_events prev_tab =
  resolve_loop rest tab_events prev_tab.
Proof.
  intros H; simpl; rewrite (choose_position_unplayable _ _ H); reflexivity.
Qed.

Lemma resolve_loop_filter l : forall tab_events prev_tab,
  resolve_loop l tab_events prev_tab =
  resolve_loop (filter playable l) tab_events prev_tab.
Proof.
  induction l as [| n l IH]; intros acc prev; [reflexivity |].
  cbn [filter]; destruct (playable n) eqn:P.
  - cbn [resolve_loop].
    destruct (choose_position (NoteEvent.midi n) prev) as [[[s f] |] |];
      cbn [bind]; auto.
  - rewrite (resolve_loop_skip _ _ _ _ (playable_false _ P)); apply IH.
Qed.

(** The loop raises nothing, and appends one event per playable note, in
    the order of the notes. *)
Lemma resolve_loop_placed l : forall tab_events prev_tab,
  prev_ok prev_tab ->
  exists new,
    resolve_loop l tab_events prev_tab = Ok (tab_events ++ new) /\
    Forall2 placed (filter playable l) new.
Proof.
  induction l as [| n l IH]; intros acc prev Hp.
  - exists []; simpl; rewrite app_nil_r; auto.
  - cbn [filter]; destruct (playable n) eqn:P.
    + destruct (choose_position_total (NoteEvent.midi n) prev Hp
                  (playable_true _ P)) as ([s f] & Hc & Hin).
      cbn [resolve_loop]; rewrite Hc; cbn [bind].
      set (tab := TabEvent.mk (NoteEvent.start_time n) (NoteEvent.end_time n)
                    s f (NoteEvent.midi n)).
      destruct (IH (acc ++ [tab]) (Some tab)) as (new & Hr & Hf).
      { exact (candidates_valid _ _ _ Hin). }
      exists (tab :: new); split.
      * rewrite Hr, <- app_assoc; reflexivity.
      * constructor; [| assumption].
        unfold placed, tab; simpl; auto.
    + rewrite (resolve_loop_skip _ _ _ _ (playable_false _ P)).
      apply IH, Hp.
Qed.

Lemma notes_to_tab_loop notes :
  notes_to_tab notes =
  resolve_loop (sorted fltb NoteEvent.start_time notes) [] None.
Proof. destruct notes; reflexivity. Qed.

Lemma notes_to_tab_placed notes :
  exists out,
    notes_to_tab notes = Ok out /\
    Forall2 placed (filter playable (sorted fltb NoteEvent.start_time notes)) out.
Proof.
  rewrite notes_to_tab_loop.
  destruct (resolve_loop_placed (sorted fltb NoteEvent.start_time notes) [] None I)
    as (new & Hr & Hf).
  exists new; auto.
Qed.

(** C1.  Every event [notes_to_tab] produces has a fret between 0 and the
    fret ceiling 20, and the open pitch of its string plus its fret is its
    [midi], which is the pitch of the note it was made from.  The function
    raises nothing, whatever the notes. *)
Theorem notes_to_tab_fret_invariant (notes : list NoteEvent.t) :
  exists out,
    notes_to_tab notes = Ok out /\
    Forall (fun t =>
      0 <= TabEvent.fret t <= 20 /\
      (exists open_midi,
         dict_get MANDOLIN_TUNING (TabEvent.string t) = Some open_midi /\
         open_midi + TabEvent.fret t = TabEvent.midi t) /\
      (exists n, In n notes /\ placed n t)) out.
Proof.
  destruct (notes_to_tab_placed notes) as (out & Hr & Hf).
  exists out; split; [assumption |].
  assert (G : forall l, (forall n, In n l -> In n notes) ->
          Forall2 placed l out ->
          Forall (fun t =>
            0 <= TabEvent.fret t <= 20 /\
            (exists open_midi,
               dict_get MANDOLIN_TUNING (TabEvent.string t) = Some open_midi /\
               open_midi + TabEvent.fret t = TabEvent.midi t) /\
            (exists n, In n notes /\ placed n t)) out).
  { clear; intros l Hl F; induction F as [| n t l out Hp F IH]; constructor.
    - pose proof Hp as (_ & _ & Hm & Hin).
      apply candidates_for_midi_In in Hin as [Hin Hb].
      apply tuning_In in Hin as [Hg _].
      split; [exact Hb |]; split.
      + exists (NoteEvent.midi n - TabEvent.fret t); split; [assumption | lia].
      + exists n; split; [apply Hl; now left | assumption].
    - apply IH; intros; apply Hl; now right. }
  apply (G _ (fun n Hn =>
    proj1 (sorted_In fltb NoteEvent.start_time n notes)
          (proj1 (proj1 (filter_In _ _ _) Hn))) Hf).
Qed.

(** C2.  With a previous position, and when no cost overflows (which is so
    from every position of the data model, see [score_valid]),
    [choose_position] returns a candidate whose cost
    [|fret - prev.fret| * 1.0 + |string - prev.string| * 0.7], as the
    program computes it in binary64, is at most the cost of every candidate;
    from a position of the data model the same holds of the costs in exact
    arithmetic. *)
Theorem choose_position_min_cost (midi : Z) (prev : TabEvent.t) :
  candidates_for_midi midi <> [] ->
  (forall c, In c (candidates_for_midi midi) -> exists k, score prev c = Ok k) ->
  exists c k,
    choose_position midi (Some prev) = Ok (Some c) /\
    In c (candidates_for_midi midi) /\
    score prev c = Ok k /\
    forall c', In c' (candidates_for_midi midi) ->
      (exists k', score prev c' = Ok k' /\ fleb k k' = true) /\
      (valid_position (TabEvent.string prev) (TabEvent.fret prev) ->
       (cost prev c <= cost prev c')%Q).
Proof.
  intros Hne Hk.
  destruct (choose_position_scored midi prev Hne Hk)
    as (c & kc & l1 & l2 & Hc & Hd & Kc & F1 & F2).
  assert (Hin : In c (candidates_for_midi midi)) by (rewrite Hd; apply in_elt).
  exists c, kc; split; [assumption |]; split; [assumption |].
  split; [assumption |].
  intros c' Hin'; destruct (Hk c' Hin') as [k' Hk'].
  assert (L : fltb k' kc = false).
  { rewrite Hd in Hin'; apply in_app_or in Hin' as [H | [<- | H]].
    - apply (F1 _ _ H Hk').
    - assert (k' = kc) by congruence; subst.
      destruct (fltb kc kc) eqn:E; [| reflexivity].
      now rewrite (fltb_asym _ _ E) in E.
    - apply (F2 _ _ H Hk'). }
  split.
  - exists k'; split; [assumption |].
    apply fltb_false_fleb; trivial; eapply score_not_nan; eassumption.
  - intros Hp; destruct c as [s f], c' as [s' f'].
    apply (score_order prev (s, f) (s', f') kc k'); trivial;
      eapply candidates_valid; eassumption.
Qed.

Lemma choose_position_min_cost_witness :
  exists c k,
    choose_position 71 (Some demo_prev) = Ok (Some c) /\
    In c (candidates_for_midi 71) /\
    score demo_prev c = Ok k /\
    forall c', In c' (candidates_for_midi 71) ->
      (exists k', score demo_prev c' = Ok k' /\ fleb k k' = true) /\
      (valid_position (TabEvent.string demo_prev) (TabEvent.fret demo_prev) ->
       (cost demo_prev c <= cost demo_prev c')%Q).
Proof.
  apply (choose_position_min_cost 71 demo_prev).
  - vm_compute; discriminate.
  - intros c H; vm_compute in H.
    destruct H as [<- | [<- | [<- | []]]]; eexists; vm_compute; reflexivity.
Defined.

(** From the A string open, pitch 71 is taken two frets up the same string
    (cost 2.0) rather than on the D string (9.7) or the G string (17.4). *)
Example choose_position_after_open_A :
  candidates_for_midi 71 = [(4, 16); (3, 9); (2, 2)] /\
  choose_position 71 (Some demo_prev) = Ok (Some (2, 2)).
Proof. vm_compute; split; reflexivity. Qed.

(** C3.  For a single note whose pitch has a candidate, the resolver returns
    exactly one event; its fret is the least fret of all candidates, and
    among the candidates on that fret its string index is the least. *)
Theorem first_note_lowest_fret (n : NoteEvent.t) :
  candidates_for_midi (NoteEvent.midi n) <> [] ->
  exists t,
    notes_to_tab [n] = Ok [t] /\
    placed n t /\
    forall s f, In (s, f) (candidates_for_midi (NoteEvent.midi n)) ->
      TabEvent.fret t <= f /\ (f = TabEvent.fret t -> TabEvent.string t <= s).
Proof.
  intros Hne.
  destruct (choose_position_first _ Hne) as ([s0 f0] & Hc & Hin & Hmin).
  exists (TabEvent.mk (NoteEvent.start_time n) (NoteEvent.end_time n) s0 f0
            (NoteEvent.midi n)).
  split; [| split].
  - rewrite notes_to_tab_loop; simpl; rewrite Hc; reflexivity.
  - unfold placed; simpl; auto.
  - intros s f H; specialize (Hmin _ H); simpl in *; lia.
Qed.

Lemma first_note_lowest_fret_witness :
  exists t,
    notes_to_tab [demo_note (b64 0 0) (b64 1 (-1)) 69] = Ok [t] /\
    placed (demo_note (b64 0 0) (b64 1 (-1)) 69) t /\
    forall s f, In (s, f) (candidates_for_midi 69) ->
      TabEvent.fret t <= f /\ (f = TabEvent.fret t -> TabEvent.string t <= s).
Proof.
  apply (first_note_lowest_fret (demo_note (b64 0 0) (b64 1 (-1)) 69)).
  vm_compute; discriminate.
Defined.

(** C5.  A note without candidate makes [choose_position] return [None]
    without raising, and the loop goes on with the same events and the same
    previous position; over a whole input, [notes_to_tab] raises nothing,
    returns one event per playable note, and returns what the loop returns on
    the playable notes alone. *)
Theorem notes_to_tab_drops_unplayable :
  (forall n rest tab_events prev_tab,
     candidates_for_midi (NoteEvent.midi n) = [] ->
     choose_position (NoteEvent.midi n) prev_tab = Ok None /\
     resolve_loop (n :: rest) tab_events prev_tab =
     resolve_loop rest tab_events prev_tab) /\
  (forall notes,
     exists out,
       notes_to_tab notes = Ok out /\
       Forall2 placed
         (filter playable (sorted fltb NoteEvent.start_time notes)) out /\
       resolve_loop
         (filter playable (sorted fltb NoteEvent.start_time notes)) [] None
       = Ok out).
Proof.
  split.
  - intros n rest acc prev H; split.
    + now apply choose_position_unplayable.
    + now apply resolve_loop_skip.
  - intros notes; destruct (notes_to_tab_placed notes) as (out & Hr & Hf).
    exists out; repeat split; trivial.
    rewrite <- resolve_loop_filter, <- notes_to_tab_loop; assumption.
Qed.

Lemma notes_to_tab_drops_unplayable_witness :
  (choose_position 40 (Some demo_prev) = Ok None /\
   resolve_loop (demo_note (b64 1 (-1)) (b64 1 0) 40 :: []) [demo_prev]
     (Some demo_prev) = resolve_loop [] [demo_prev] (Some demo_prev)) /\
  exists out,
    notes_to_tab notes_with_gap = Ok out /\
    Forall2 placed
      (filter playable (sorted fltb NoteEvent.start_time notes_with_gap)) out /\
    resolve_loop
      (filter playable (sorted fltb NoteEvent.start_time notes_with_gap))
      [] None = Ok out.
Proof.
  split.
  - apply (proj1 notes_to_tab_drops_unplayable
             (demo_note (b64 1 (-1)) (b64 1 0) 40)).
    vm_compute; reflexivity.
  - apply (proj2 notes_to_tab_drops_unplayable notes_with_gap).
Defined.

(** ** Time order *)

Lemma fltb_feqb_trans a b c :
  fltb a b = true -> feqb b c = true -> fltb a c = true.
Proof.
  rewrite feqb_rank, !fltb_rank.
  intros (x & y & Ha & Hb & L) (y' & Hb' & Hc).
  rewrite Hb in Hb'; injection Hb' as <-.
  exists x, y; auto.
Qed.

Lemma fltb_nlt_trans a b c :
  is_nan a = false -> is_nan b = false -> is_nan c = false ->
  fltb b a = false -> fltb c b = false -> fltb c a = false.
Proof.
  intros Na Nb Nc H1 H2.
  apply fleb_fltb_false, (fleb_trans a b c); now apply fltb_false_fleb.
Qed.

Lemma same_time_not_before t a b :
  feqb a t = true -> feqb b t = true -> fltb b a = false.
Proof.
  intros Ha Hb; destruct (fltb b a) eqn:E; [| reflexivity].
  pose proof (fltb_feqb_trans _ _ _ E Ha) as L.
  apply fltb_not_feqb in L; rewrite feqb_sym in L; congruence.
Qed.

Lemma filter_comm {A : Type} (P Q : A -> bool) l :
  filter P (filter Q l) = filter Q (filter P l).
Proof.
  induction l as [| x l IH]; simpl; [reflexivity |].
  destruct (P x) eqn:Px, (Q x) eqn:Qx; simpl; rewrite ?Px, ?Qx, IH; reflexivity.
Qed.

Lemma Forall2_filter {A B : Type} (R : A -> B -> Prop) P Q l l' :
  (forall a b, R a b -> P a = Q b) ->
  Forall2 R l l' -> Forall2 R (filter P l) (filter Q l').
Proof.
  intros H; induction 1 as [| a b l l' Hab F IH]; simpl; [constructor |].
  rewrite (H _ _ Hab); destruct (Q b); auto.
Qed.

Lemma StronglySorted_filter {A : Type} (R : A -> A -> Prop) P l :
  StronglySorted R l -> StronglySorted R (filter P l).
Proof.
  induction 1 as [| x l S IH F]; simpl; [constructor |].
  destruct (P x); [| assumption].
  constructor; [assumption |].
  rewrite Forall_forall in F |- *; intros y Hy.
  apply filter_In in Hy as [Hy _]; auto.
Qed.

Lemma StronglySorted_Forall2 {A B : Type} (RA : A -> A -> Prop)
    (RB : B -> B -> Prop) (R : A -> B -> Prop) l l' :
  (forall a b a' b', In a l -> In b l -> R a a' -> R b b' -> RA a b -> RB a' b') ->
  Forall2 R l l' -> StronglySorted RA l -> StronglySorted RB l'.
Proof.
  intros H F; induction F as [| a a' l l' Haa F IH]; intros S; [constructor |].
  inversion S as [| ? ? S' Fa]; subst.
  constructor.
  - apply IH; [| assumption].
    intros x y x' y' Hx Hy; apply H; now right.
  - rewrite Forall_forall in Fa.
    clear IH S S'; induction F as [| b b' l l' Hbb F IH]; constructor.
    + apply (H a b a' b'); simpl; auto.
      apply Fa; now left.
    + apply IH.
      * intros x y x' y' Hx Hy; apply H; simpl in *; tauto.
      * intros x Hx; apply Fa; now right.
Qed.

(** C6.  The loop runs over the notes stably sorted by start time.  When no
    start time is a NaN (the data model has start times of at least 0), the
    events come out in non-decreasing start time, and the events that start
    at any one time are the playable input notes that start at that time, in
    their input order. *)
Theorem notes_to_tab_time_order (notes : list NoteEvent.t) :
  Forall (fun n => is_nan (NoteEvent.start_time n) = false) notes ->
  exists out,
    notes_to_tab notes = Ok out /\
    resolve_loop (sorted fltb NoteEvent.start_time notes) [] None = Ok out /\
    StronglySorted
      (fun a b => fleb (TabEvent.start_time a) (TabEvent.start_time b) = true)
      out /\
    forall t,
      Forall2 placed
        (filter (fun n => feqb (NoteEvent.start_time n) t)
                (filter playable notes))
        (filter (fun e => feqb (TabEvent.start_time e) t) out).
Proof.
  intros Hn.
  destruct (notes_to_tab_placed notes) as (out & Hr & Hf).
  exists out; split; [assumption |].
  split; [now rewrite <- notes_to_tab_loop |]; split.
  - pose proof (sorted_ordered fltb NoteEvent.start_time
                  (fun k => is_nan k = false) fltb_asym fltb_nlt_trans
                  notes Hn) as S.
    apply (StronglySorted_filter _ playable) in S.
    refine (StronglySorted_Forall2 _ _ _ _ _ _ Hf S).
    intros a b a' b' Ha Hb (Ea & _) (Eb & _) L; rewrite Ea, Eb.
    rewrite Forall_forall in Hn.
    apply filter_In in Ha as [Ha _], Hb as [Hb _].
    apply sorted_In in Ha, Hb.
    apply fltb_false_fleb; auto.
  - intros t.
    rewrite filter_comm,
      <- (sorted_filter fltb NoteEvent.start_time
            (fun n => feqb (NoteEvent.start_time n) t) notes),
      filter_comm.
    + apply Forall2_filter; [| assumption].
      intros a b (E & _); now rewrite E.
    + intros a b _ _ Ha Hb; exact (same_time_not_before t _ _ Ha Hb).
Qed.

Lemma notes_to_tab_time_order_witness :
  exists out,
    notes_to_tab notes_unsorted = Ok out /\
    resolve_loop (sorted fltb NoteEvent.start_time notes_unsorted) [] None = Ok out /\
    StronglySorted
      (fun a b => fleb (TabEvent.start_time a) (TabEvent.start_time b) = true)
      out /\
    forall t,
      Forall2 placed
        (filter (fun n => feqb (NoteEvent.start_time n) t)
                (filter playable notes_unsorted))
        (filter (fun e => feqb (TabEvent.start_time e) t) out).
Proof.
  apply (notes_to_tab_time_order notes_unsorted).
  repeat constructor.
Defined.

(** ** Confidence *)

Lemma resolve_loop_confidence l l' :
  Forall2 same_but_confidence l l' ->
  forall tab_events prev_tab,
    resolve_loop l tab_events prev_tab = resolve_loop l' tab_events prev_tab.
Proof.
  induction 1 as [| a b l l' (Es & Ee & Em) F IH]; intros acc prev;
    [reflexivity |].
  cbn [resolve_loop]; rewrite Es, Ee, Em.
  destruct (choose_position (NoteEvent.midi b) prev) as [[[s f] |] |];
    cbn [bind]; auto.
Qed.

(** C9.  The confidence of the notes has no effect: two inputs that are
    equal note by note except for the confidences give the same result. *)
Theorem notes_to_tab_ignores_confidence (notes notes' : list NoteEvent.t) :
  Forall2 same_but_confidence notes notes' ->
  notes_to_tab notes = notes_to_tab notes'.
Proof.
  intros F; rewrite !notes_to_tab_loop.
  apply resolve_loop_confidence.
  apply sorted_Forall2; [| assumption].
  intros a b (Es & _); exact Es.
Qed.

Lemma notes_to_tab_ignores_confidence_witness :
  notes_to_tab demo_notes =
  notes_to_tab
    (map (fun n => NoteEvent.mk (NoteEvent.start_time n) (NoteEvent.end_time n)
                     (NoteEvent.midi n) (b64 1 (-2))) demo_notes).
Proof.
  apply (notes_to_tab_ignores_confidence demo_notes).
  repeat constructor.
Defined.

(** ** Ties *)

Lemma StronglySorted_after {A : Type} (R : A -> A -> Prop) l1 x l2 y :
  StronglySorted R (l1 ++ x :: l2) -> In y l2 -> R x y.
Proof.
  induction l1 as [| z l1 IH]; simpl; intros S Hy.
  - inversion S as [| ? ? _ F]; subst.
    rewrite Forall_forall in F; auto.
  - inversion S; subst; auto.
Qed.

Lemma cost_lt prev c c' :
  (cost prev c < cost prev c')%Q <->
  10 * Z.abs (snd c - TabEvent.fret prev) + 7 * Z.abs (fst c - TabEvent.string prev)
  < 10 * Z.abs (snd c' - TabEvent.fret prev) + 7 * Z.abs (fst c' - TabEvent.string prev).
Proof.
  unfold cost, Qlt, Qplus, Qmult, inject_Z; cbn [Qnum Qden Pos.mul]; lia.
Qed.

Lemma cost_eq prev c c' :
  (cost prev c == cost prev c')%Q <->
  10 * Z.abs (snd c - TabEvent.fret prev) + 7 * Z.abs (fst c - TabEvent.string prev)
  = 10 * Z.abs (snd c' - TabEvent.fret prev) + 7 * Z.abs (fst c' - TabEvent.string prev).
Proof.
  unfold cost, Qeq, Qplus, Qmult, inject_Z; cbn [Qnum Qden Pos.mul]; lia.
Qed.

(** In exact arithmetic no tie is ever at the least cost, whatever the
    previous position: two candidates of equal cost are two strings apart,
    on either side of the previous position, and the candidate on the string
    between them is the previous position itself, of cost zero.  So the order
    of the candidates only matters when rounding makes costs equal. *)
Lemma exact_cost_ties_not_least midi prev c c' :
  In c (candidates_for_midi midi) -> In c' (candidates_for_midi midi) ->
  c <> c' -> (cost prev c == cost prev c')%Q ->
  exists c'', In c'' (candidates_for_midi midi) /\
              (cost prev c'' < cost prev c)%Q.
Proof.
  destruct c as [s f], c' as [s' f']; intros Hc Hc' Hne E.
  apply cost_eq in E; cbn [fst snd] in E.
  apply candidates_for_midi_In in Hc as [Ht Hb], Hc' as [Ht' Hb'].
  unfold MAX_FRET in *.
  assert (Hs : s <> s').
  { intros <-; apply Hne; f_equal.
    apply tuning_In in Ht as [G _], Ht' as [G' _].
    rewrite G in G'; injection G'; lia. }
  assert (M : exists s'' o, In (s'', o) MANDOLIN_TUNING /\
            0 <= midi - o <= 20 /\ s'' = TabEvent.string prev /\
            midi - o = TabEvent.fret prev /\ f <> midi - o).
  { simpl in Ht, Ht'.
    destruct Ht as [Ht | [Ht | [Ht | [Ht | []]]]];
      destruct Ht' as [Ht' | [Ht' | [Ht' | [Ht' | []]]]];
      injection Ht as <- Hf; injection Ht' as <- Hf'; try lia;
      [exists 3, 62 | exists 2, 69 | exists 3, 62 | exists 2, 69];
      (split; [simpl; tauto | lia]). }
  destruct M as (s'' & o & Ht'' & Hb'' & Es & Ef & Hf).
  exists (s'', midi - o); split.
  - apply candidates_for_midi_In; split; [| exact Hb''].
    now replace (midi - (midi - o)) with o by lia.
  - apply cost_lt; cbn [fst snd]; lia.
Qed.

(** C10.  With a previous position, and when no cost overflows,
    [choose_position] returns the first, in the order of
    [candidates_for_midi], of the candidates of least cost; that order is the
    order of the tuning table, string 4 first, so a candidate whose cost
    equals that of the returned one is on a string of smaller or equal
    index. *)
Theorem choose_position_tie_break (midi : Z) (prev : TabEvent.t) :
  candidates_for_midi midi <> [] ->
  (forall c, In c (candidates_for_midi midi) -> exists k, score prev c = Ok k) ->
  candidates_for_midi midi =
    flat_map (candidate_on midi) [(4, 55); (3, 62); (2, 69); (1, 76)] /\
  StronglySorted (fun a b => fst b < fst a) (candidates_for_midi midi) /\
  exists c k l1 l2,
    choose_position midi (Some prev) = Ok (Some c) /\
    score prev c = Ok k /\
    candidates_for_midi midi = l1 ++ c :: l2 /\
    (forall c' k', In c' (candidates_for_midi midi) -> score prev c' = Ok k' ->
       fltb k' k = false) /\
    (forall c' k', In c' l1 -> score prev c' = Ok k' -> feqb k' k = false) /\
    (forall c' k', In c' (candidates_for_midi midi) -> score prev c' = Ok k' ->
       feqb k' k = true -> fst c' <= fst c).
Proof.
  intros Hne Hk.
  split; [apply candidates_for_midi_eq |].
  split; [apply candidates_for_midi_descending |].
  destruct (choose_position_scored midi prev Hne Hk)
    as (c & kc & l1 & l2 & Hc & Hd & Kc & F1 & F2).
  exists c, kc, l1, l2; repeat split; trivial.
  - intros c' k' Hin Hk'.
    rewrite Hd in Hin; apply in_app_or in Hin as [H | [<- | H]].
    + apply (F1 _ _ H Hk').
    + assert (k' = kc) by congruence; subst.
      destruct (fltb kc kc) eqn:E; [| reflexivity].
      now rewrite (fltb_asym _ _ E) in E.
    + apply (F2 _ _ H Hk').
  - intros c' k' Hin Hk'; apply (F1 _ _ Hin Hk').
  - intros c' k' Hin Hk' E.
    pose proof (candidates_for_midi_descending midi) as S.
    rewrite Hd in Hin, S; apply in_app_or in Hin as [H | [<- | H]].
    + destruct (F1 _ _ H Hk') as [_ N]; congruence.
    + lia.
    + pose proof (StronglySorted_after _ _ _ _ _ S H); simpl in *; lia.
Qed.

Example far_prev_ties :
  map (score far_prev) (candidates_for_midi 69) =
    [Ok (b64 1 60); Ok (b64 1 60); Ok (b64 1 60)] /\
  choose_position 69 (Some far_prev) = Ok (Some (4, 14)).
Proof. vm_compute; split; reflexivity. Qed.

(** A previous fret beyond the range of binary64 makes the cost, and with it
    [choose_position], raise. *)
Example choose_position_overflow :
  choose_position 69
    (Some (TabEvent.mk (b64 0 0) (b64 1 (-1)) 2 (2 ^ 1024) 0))
  = Raise OverflowError.
Proof. vm_compute; reflexivity. Qed.

Lemma choose_position_tie_break_witness :
  candidates_for_midi 69 =
    flat_map (candidate_on 69) [(4, 55); (3, 62); (2, 69); (1, 76)] /\
  StronglySorted (fun a b => fst b < fst a) (candidates_for_midi 69) /\
  exists c k l1 l2,
    choose_position 69 (Some far_prev) = Ok (Some c) /\
    score far_prev c = Ok k /\
    candidates_for_midi 69 = l1 ++ c :: l2 /\
    (forall c' k', In c' (candidates_for_midi 69) -> score far_prev c' = Ok k' ->
       fltb k' k = false) /\
    (forall c' k', In c' l1 -> score far_prev c' = Ok k' -> feqb k' k = false) /\
    (forall c' k', In c' (candidates_for_midi 69) -> score far_prev c' = Ok k' ->
       feqb k' k = true -> fst c' <= fst c).
Proof.
  apply (choose_position_tie_break 69 far_prev).
  - vm_compute; discriminate.
  - intros c H; vm_compute in H.
    destruct H as [<- | [<- | [<- | []]]]; eexists; vm_compute; reflexivity.
Defined.

(** ** Strings *)

Local Open Scope string_scope.

Lemma length_append s1 s2 :
  String.length (s1 ++ s2) = (String.length s1 + String.length s2)%nat.
Proof. induction s1 as [| c s1 IH]; simpl; [reflexivity | now rewrite IH]. Qed.

Lemma append_assoc s1 s2 s3 : (s1 ++ s2) ++ s3 = s1 ++ (s2 ++ s3).
Proof. induction s1 as [| c s1 IH]; simpl; [reflexivity | now rewrite IH]. Qed.

Lemma substring_all s : substring 0 (String.length s) s = s.
Proof. induction s as [| c s IH]; simpl; [reflexivity | now rewrite IH]. Qed.

Lemma substring_suffix a b :
  substring (String.length a) (String.length b) (a ++ b) = b.
Proof. induction a as [| c a IH]; simpl; [apply substring_all | exact IH]. Qed.

Lemma last_two_append a c1 c0 :
  last_two (a ++ String c1 (String c0 "")) = String c1 (String c0 "").
Proof.
  unfold last_two; rewrite length_append; simpl String.length.
  replace (String.length a + 2 - 2)%nat with (String.length a) by lia.
  apply (substring_suffix a (String c1 (String c0 ""))).
Qed.

Lemma no_nl_append a b : no_nl (a ++ b) = no_nl a && no_nl b.
Proof.
  induction a as [| c a IH]; simpl; [reflexivity |].
  now rewrite IH, andb_assoc.
Qed.

Lemma no_nl_substring s : forall n m, no_nl s = true -> no_nl (substring n m s) = true.
Proof.
  induction s as [| c s IH]; intros n m H; simpl in *.
  - destruct n, m; reflexivity.
  - apply andb_true_iff in H as [Hc Hs].
    destruct n as [| n]; [destruct m as [| m] |]; simpl; auto.
    rewrite Hc; simpl; auto.
Qed.

Lemma split_lines_no_nl a : no_nl a = true -> split_lines a = [a].
Proof.
  induction a as [| c a IH]; simpl; [reflexivity |].
  intros H; apply andb_true_iff in H as [Hc Ha].
  apply negb_true_iff in Hc; rewrite Hc, (IH Ha); reflexivity.
Qed.

Lemma split_lines_append a b :
  no_nl a = true -> split_lines (a ++ nl ++ b) = a :: split_lines b.
Proof.
  change (nl ++ b) with (String (ascii_of_nat 10) b).
  induction a as [| c a IH]; [reflexivity |].
  intros H; simpl in H; apply andb_true_iff in H as [Hc Ha].
  apply negb_true_iff in Hc.
  cbn [append split_lines]; rewrite Hc, (IH Ha); reflexivity.
Qed.

(** ** Decimal numerals *)

Lemma string_of_uint_revapp d : forall acc,
  DecimalString.NilEmpty.string_of_uint (Decimal.revapp d acc) =
  DecimalString.NilEmpty.string_of_uint (Decimal.rev d) ++
  DecimalString.NilEmpty.string_of_uint acc.
Proof.
  unfold Decimal.rev.
  induction d as [| d IH | d IH | d IH | d IH | d IH | d IH | d IH | d IH
                  | d IH | d IH]; intros acc; simpl; [reflexivity | ..];
    rewrite IH; symmetry; rewrite IH, append_assoc; reflexivity.
Qed.

Lemma string_of_uint_rev d :
  d <> Decimal.Nil ->
  DecimalString.NilEmpty.string_of_uint (Decimal.rev d) =
  DecimalString.NilEmpty.string_of_uint (Decimal.rev (DecimalPos.Unsigned.tl d))
  ++ String (digit (Z.of_N (DecimalPos.Unsigned.hd d))) "".
Proof.
  destruct d; [congruence | ..]; intros _; unfold Decimal.rev at 1;
    simpl Decimal.revapp; rewrite string_of_uint_revapp; reflexivity.
Qed.

Lemma hd_lt_10 d : (DecimalPos.Unsigned.hd d < 10)%N.
Proof. destruct d; simpl; lia. Qed.

Lemma of_lu_little p :
  DecimalPos.Unsigned.of_lu (Pos.to_little_uint p) = Npos p.
Proof.
  rewrite <- DecimalPos.Unsigned.of_lu_rev.
  apply DecimalPos.Unsigned.of_to.
Qed.

Lemma of_lu_split d :
  Z.of_N (DecimalPos.Unsigned.hd d) = Z.of_N (DecimalPos.Unsigned.of_lu d) mod 10 /\
  Z.of_N (DecimalPos.Unsigned.of_lu (DecimalPos.Unsigned.tl d)) =
    Z.of_N (DecimalPos.Unsigned.of_lu d) / 10.
Proof.
  pose proof (DecimalPos.Unsigned.of_lu_eqn d) as E.
  pose proof (hd_lt_10 d) as H.
  split.
  - apply (Z.mod_unique_pos _ _
      (Z.of_N (DecimalPos.Unsigned.of_lu (DecimalPos.Unsigned.tl d)))); lia.
  - apply (Z.div_unique_pos _ _ _
      (Z.of_N (DecimalPos.Unsigned.hd d))); lia.
Qed.

Lemma numeral_pos p :
  numeral (Zpos p) =
  DecimalString.NilEmpty.string_of_uint (Decimal.rev (Pos.to_little_uint p)).
Proof.
  unfold numeral; simpl.
  pose proof (DecimalPos.Unsigned.to_uint_nonnil p) as H.
  unfold Pos.to_uint in *.
  destruct (Decimal.rev (Pos.to_little_uint p)); [congruence | reflexivity ..].
Qed.

Lemma of_lu_nonnil d : DecimalPos.Unsigned.of_lu d <> 0%N -> d <> Decimal.Nil.
Proof. intros H ->; apply H; reflexivity. Qed.

(** The numeral of [n >= 10] ends with the digits of [n mod 100]. *)
Lemma numeral_last_digits n :
  10 <= n ->
  exists front,
    numeral n = front ++ String (digit (n / 10 mod 10)) (String (digit (n mod 10)) "").
Proof.
  intros H; destruct n as [| p | p]; try lia.
  set (l := Pos.to_little_uint p).
  pose proof (of_lu_little p) as V; fold l in V.
  destruct (of_lu_split l) as [H0 T0].
  destruct (of_lu_split (DecimalPos.Unsigned.tl l)) as [H1 _].
  rewrite V in H0, T0; rewrite T0 in H1; simpl Z.of_N in *.
  assert (N0 : l <> Decimal.Nil) by (apply of_lu_nonnil; rewrite V; discriminate).
  assert (N1 : DecimalPos.Unsigned.tl l <> Decimal.Nil).
  { apply of_lu_nonnil; intros E; rewrite E in T0; simpl in T0.
    assert (1 <= Z.pos p / 10) by (apply Z.div_le_lower_bound; lia); lia. }
  rewrite numeral_pos; fold l.
  rewrite (string_of_uint_rev l N0), (string_of_uint_rev _ N1), H0, H1.
  rewrite append_assoc; eexists; reflexivity.
Qed.

Lemma numeral_one_digit n :
  0 <= n <= 9 -> numeral n = String (digit n) "".
Proof.
  intros H.
  assert (C : forallb (fun d => String.eqb (numeral d) (String (digit d) ""))
                      (Zrange 10) = true) by reflexivity.
  rewrite forallb_forall in C.
  apply String.eqb_eq, C, Zrange_In; simpl; lia.
Qed.

Lemma no_nl_string_of_uint d :
  no_nl (DecimalString.NilEmpty.string_of_uint d) = true.
Proof. induction d; simpl; auto. Qed.

Lemma length_string_of_uint d :
  d <> Decimal.Nil ->
  (1 <= String.length (DecimalString.NilEmpty.string_of_uint d))%nat.
Proof. destruct d; [congruence | ..]; intros _; simpl; lia. Qed.

Lemma numeral_shape n : no_nl (numeral n) = true /\ (1 <= String.length (numeral n))%nat.
Proof.
  destruct n as [| p | p].
  - split; [reflexivity | simpl; lia].
  - rewrite numeral_pos; split; [apply no_nl_string_of_uint |].
    apply length_string_of_uint, DecimalPos.Unsigned.to_uint_nonnil.
  - unfold numeral; simpl.
    pose proof (DecimalPos.Unsigned.to_uint_nonnil p) as H.
    destruct (Pos.to_uint p) eqn:E; [congruence | ..];
      (split; [apply (no_nl_string_of_uint (Decimal.D0 u)) || simpl; apply no_nl_string_of_uint | simpl; lia]).
Qed.

(** ** The renderer *)

Lemma substring_length s : forall n m,
  (n + m <= String.length s)%nat -> String.length (substring n m s) = m.
Proof.
  induction s as [| c s IH]; intros n m H; simpl in *.
  - destruct n, m; simpl in *; lia.
  - destruct n as [| n]; [destruct m as [| m] |]; simpl; auto.
    + rewrite IH; lia.
    + apply IH; lia.
Qed.

(** Every chunk has two characters, and no line break. *)
Lemma chunk_text_shape s ev :
  String.length (chunk_text s ev) = 2%nat /\ no_nl (chunk_text s ev) = true.
Proof.
  unfold chunk_text; destruct (s =? TabEvent.string ev)%Z; [| split; reflexivity].
  destruct (numeral_shape (TabEvent.fret ev)) as [Hn Hl].
  destruct (Nat.eqb_spec (String.length (numeral (TabEvent.fret ev))) 1) as [E | E].
  - split; [simpl; now rewrite E | simpl; exact Hn].
  - destruct (Nat.leb_spec 2 (String.length (numeral (TabEvent.fret ev)))).
    + split; [apply substring_length; lia | now apply no_nl_substring].
    + lia.
Qed.

(** [str] on either side of the limit. *)
Lemma str_ok n : (Z.abs n < 10 ^ max_str_digits)%Z -> str n = Ok (numeral n).
Proof.
  intros H; unfold str.
  destruct (Z.leb_spec (10 ^ max_str_digits) (Z.abs n)); [lia | reflexivity].
Qed.

Lemma str_raises n :
  (10 ^ max_str_digits <= Z.abs n)%Z -> str n = Raise ValueError.
Proof.
  intros H; unfold str.
  destruct (Z.leb_spec (10 ^ max_str_digits) (Z.abs n)); [reflexivity | lia].
Qed.

Lemma limit_large : (1000000 < 10 ^ max_str_digits)%Z.
Proof. vm_compute; reflexivity. Qed.

Lemma chunk_ok s ev :
  (s = TabEvent.string ev ->
   (Z.abs (TabEvent.fret ev) < 10 ^ max_str_digits)%Z) ->
  chunk s ev = Ok (chunk_text s ev).
Proof.
  intros H; unfold chunk, chunk_text.
  destruct (Z.eqb_spec s (TabEvent.string ev)) as [E | E]; [| reflexivity].
  rewrite (str_ok _ (H E)); reflexivity.
Qed.

Lemma chunk_raises ev :
  (10 ^ max_str_digits <= Z.abs (TabEvent.fret ev))%Z ->
  chunk (TabEvent.string ev) ev = Raise ValueError.
Proof.
  intros H; unfold chunk; rewrite Z.eqb_refl, (str_raises _ H); reflexivity.
Qed.

Lemma emit_column_ok ev columns :
  (forall s, In s (map fst columns) -> s = TabEvent.string ev ->
     (Z.abs (TabEvent.fret ev) < 10 ^ max_str_digits)%Z) ->
  emit_column columns ev =
  Ok (map (fun '(s, chunks) => (s, (chunks ++ [chunk_text s ev])%list)) columns).
Proof.
  induction columns as [| [s chunks] columns IH]; intros H; [reflexivity |].
  cbn [emit_column map].
  rewrite chunk_ok by (apply (H s); now left).
  rewrite IH by (intros s' Hs'; apply (H s'); now right).
  reflexivity.
Qed.

Lemma emit_columns_ok evs : forall columns,
  (forall ev s, In ev evs -> In s (map fst columns) -> s = TabEvent.string ev ->
     (Z.abs (TabEvent.fret ev) < 10 ^ max_str_digits)%Z) ->
  emit_columns evs columns =
  Ok (map (fun '(s, chunks) => (s, (chunks ++ map (chunk_text s) evs)%list))
          columns).
Proof.
  induction evs as [| ev evs IH]; intros columns H.
  - cbn [emit_columns map]; f_equal.
    rewrite <- (map_id columns) at 1; apply map_ext.
    intros [s chunks]; now rewrite app_nil_r.
  - cbn [emit_columns].
    rewrite emit_column_ok by (intros s Hs; apply H; [now left | exact Hs]).
    cbn [bind]; rewrite IH.
    + f_equal; rewrite map_map; apply map_ext.
      intros [s chunks]; now rewrite <- app_assoc.
    + intros ev' s Hev Hs; apply H; [now right |].
      rewrite map_map in Hs.
      erewrite map_ext in Hs; [exact Hs |].
      intros [s' c']; reflexivity.
Qed.

Lemma printable_bound evs ev s :
  Forall printable evs -> In ev evs -> In s (map fst columns_init) ->
  s = TabEvent.string ev ->
  (Z.abs (TabEvent.fret ev) < 10 ^ max_str_digits)%Z.
Proof.
  intros F Hev Hs E; rewrite Forall_forall in F; apply (F ev Hev).
  subst s; simpl in Hs; lia.
Qed.

Lemma sorted_Forall {A K : Type} (ltb : K -> K -> bool) (key : A -> K)
    (P : A -> Prop) l :
  Forall P l -> Forall P (sorted ltb key l).
Proof.
  rewrite !Forall_forall; intros H x Hx; apply H.
  now apply (proj1 (sorted_In ltb key x l)).
Qed.

(** When every fret converts, the renderer returns the lines of the events
    in the order of their start times. *)
Lemma render_lines_eq tab_events :
  Forall printable tab_events ->
  render_lines tab_events =
  Ok (text_lines (sorted fltb TabEvent.start_time tab_events)).
Proof.
  intros F; unfold render_lines.
  rewrite emit_columns_ok.
  - reflexivity.
  - intros ev s Hev Hs.
    apply (printable_bound _ ev s
             (sorted_Forall fltb TabEvent.start_time _ _ F)); trivial.
Qed.

Lemma render_ascii_tab_text tab_events :
  tab_events <> [] -> Forall printable tab_events ->
  render_ascii_tab tab_events =
  Ok (join nl (text_lines (sorted fltb TabEvent.start_time tab_events))).
Proof.
  intros Hne F; destruct tab_events as [| ev evs]; [congruence |].
  unfold render_ascii_tab; rewrite (render_lines_eq _ F); reflexivity.
Qed.

Lemma append_nil_r s : s ++ "" = s.
Proof. induction s as [| c s IH]; simpl; [reflexivity | now rewrite IH]. Qed.

Lemma join_empty_cons x l : join "" (x :: l) = x ++ join "" l.
Proof. destruct l; simpl; [now rewrite append_nil_r | reflexivity]. Qed.

Lemma join_chunks s evs :
  String.length (join "" (map (chunk_text s) evs)) = (2 * List.length evs)%nat /\
  no_nl (join "" (map (chunk_text s) evs)) = true.
Proof.
  induction evs as [| ev evs [IH1 IH2]]; [split; reflexivity |].
  destruct (chunk_text_shape s ev) as [L N].
  cbn [map]; rewrite join_empty_cons, length_append, no_nl_append, L, N, IH1, IH2.
  simpl List.length; split; [lia | reflexivity].
Qed.

(** One line of the tab: label, bar, two characters per event, bar. *)
Lemma line_shape label s evs :
  String.length label = 2%nat -> no_nl label = true ->
  String.length (label ++ join "" (map (chunk_text s) evs) ++ "|")
    = (2 + 2 * List.length evs + 1)%nat /\
  no_nl (label ++ join "" (map (chunk_text s) evs) ++ "|") = true.
Proof.
  intros Hl Hn; destruct (join_chunks s evs) as [L N].
  rewrite !length_append, !no_nl_append, Hl, Hn, L, N; simpl; split; [lia | reflexivity].
Qed.

(** The text of the lines splits back into the lines. *)
Lemma split_text_lines l :
  split_lines (join nl (text_lines l)) = text_lines l.
Proof.
  unfold text_lines; cbn [map join].
  destruct (line_shape "E|" 1 l eq_refl eq_refl) as [_ NE].
  destruct (line_shape "A|" 2 l eq_refl eq_refl) as [_ NA].
  destruct (line_shape "D|" 3 l eq_refl eq_refl) as [_ ND].
  destruct (line_shape "G|" 4 l eq_refl eq_refl) as [_ NG].
  rewrite (split_lines_append _ _ NE), (split_lines_append _ _ NA),
    (split_lines_append _ _ ND), (split_lines_no_nl _ NG).
  reflexivity.
Qed.

(** C4, as the program has it.  For at least one event, and frets that [str]
    converts (fewer than 4301 digits), the output is four lines, each made of
    a label and a bar (2 characters), one chunk of 2 characters per event and
    a closing bar: [2 + 2*N + 1] characters.  For no event the lines are the
    bare ["E|"], ["A|"], ["D|"], ["G|"], of 2 characters, each followed by a
    line break. *)
Theorem render_ascii_tab_line_lengths :
  (exists text,
     render_ascii_tab [] = Ok text /\
     split_lines text = ["E|"; "A|"; "D|"; "G|"; ""]) /\
  forall tab_events,
    tab_events <> [] ->
    Forall printable tab_events ->
    exists text chunks_E chunks_A chunks_D chunks_G,
      render_ascii_tab tab_events = Ok text /\
      split_lines text =
        [ "E|" ++ join "" chunks_E ++ "|"; "A|" ++ join "" chunks_A ++ "|";
          "D|" ++ join "" chunks_D ++ "|"; "G|" ++ join "" chunks_G ++ "|" ] /\
      Forall (fun chunks =>
                List.length chunks = List.length tab_events /\
                Forall (fun c => String.length c = 2%nat) chunks)
             [chunks_E; chunks_A; chunks_D; chunks_G] /\
      Forall (fun line =>
                String.length line = (2 + 2 * List.length tab_events + 1)%nat)
             (split_lines text).
Proof.
  split; [eexists; split; reflexivity |].
  intros evs Hne F.
  set (evs' := sorted fltb TabEvent.start_time evs).
  assert (Hlen : List.length evs' = List.length evs) by apply sorted_length.
  exists (join nl (text_lines evs')),
         (map (chunk_text 1) evs'), (map (chunk_text 2) evs'),
         (map (chunk_text 3) evs'), (map (chunk_text 4) evs').
  split; [now apply render_ascii_tab_text |].
  rewrite split_text_lines.
  split; [reflexivity |]; split.
  - repeat constructor; try (rewrite length_map; exact Hlen);
      apply Forall_forall; intros c Hc; apply in_map_iff in Hc as (ev & <- & _);
      apply chunk_text_shape.
  - unfold text_lines; cbn [map]; rewrite <- Hlen.
    repeat constructor; apply line_shape; reflexivity.
Qed.

Lemma render_ascii_tab_line_lengths_witness :
  exists text chunks_E chunks_A chunks_D chunks_G,
    render_ascii_tab [demo_prev] = Ok text /\
    split_lines text =
      [ "E|" ++ join "" chunks_E ++ "|"; "A|" ++ join "" chunks_A ++ "|";
        "D|" ++ join "" chunks_D ++ "|"; "G|" ++ join "" chunks_G ++ "|" ] /\
    Forall (fun chunks =>
              List.length chunks = List.length [demo_prev] /\
              Forall (fun c => String.length c = 2%nat) chunks)
           [chunks_E; chunks_A; chunks_D; chunks_G] /\
    Forall (fun line =>
              String.length line = (2 + 2 * List.length [demo_prev] + 1)%nat)
           (split_lines text).
Proof.
  apply (proj2 render_ascii_tab_line_lengths [demo_prev]).
  - discriminate.
  - constructor; [| constructor].
    intros _; apply Z.lt_trans with 1000000%Z; [reflexivity | apply limit_large].
Defined.

(** C4 as it is stated fails for no event: no line of the output has the
    [2 + 2*0 + 1 = 3] characters it asks for.  It fails too for a fret of
    4301 digits, for which there is no output at all. *)
Lemma render_ascii_tab_empty_line_lengths :
  (exists text,
     render_ascii_tab [] = Ok text /\
     Forall (fun line =>
               String.length line
               <> (2 + 2 * List.length (@nil TabEvent.t) + 1)%nat)
            (split_lines text)) /\
  render_ascii_tab [huge_fret] = Raise ValueError.
Proof.
  split.
  - eexists; split; [reflexivity |].
    repeat constructor; simpl; lia.
  - vm_compute; reflexivity.
Qed.

(** C7, as the program has it.  On no note the resolver returns no event; on
    no event the renderer returns the four bare lines ["E|"], ["A|"], ["D|"],
    ["G|"], each followed by a line break, the last one too. *)
Theorem empty_input :
  notes_to_tab [] = Ok [] /\
  render_ascii_tab [] = Ok (join nl ["E|"; "A|"; "D|"; "G|"] ++ nl) /\
  render_ascii_tab [] =
    Ok (String "E" (String "|" (String (ascii_of_nat 10)
       (String "A" (String "|" (String (ascii_of_nat 10)
       (String "D" (String "|" (String (ascii_of_nat 10)
       (String "G" (String "|" (String (ascii_of_nat 10) "")))))))))))).
Proof. repeat split. Qed.

(** C7 as it is stated fails: the text returned for no event is not the
    four lines joined by line breaks, which is the shape of the text
    returned for some events; it has one more line break at its end. *)
Lemma render_ascii_tab_empty_not_joined :
  render_ascii_tab [] <> Ok (join nl ["E|"; "A|"; "D|"; "G|"]) /\
  exists lines,
    render_lines [demo_prev] = Ok lines /\
    render_ascii_tab [demo_prev] = Ok (join nl lines).
Proof.
  split; [discriminate |].
  eexists; split; vm_compute; reflexivity.
Qed.

Lemma chunk_text_digits ev :
  (0 <= TabEvent.fret ev)%Z ->
  let fret := TabEvent.fret ev in
  let cell := chunk_text (TabEvent.string ev) ev in
  (fret <= 9 ->
   cell = String "-" (String (digit fret) "") /\
   numeral fret = String (digit fret) "")%Z /\
  (10 <= fret ->
   cell = last_two (numeral fret) /\
   cell = String (digit (fret / 10 mod 10)) (String (digit (fret mod 10)) "") /\
   exists front, numeral fret = front ++ cell)%Z.
Proof.
  intros H fret cell.
  unfold cell, chunk_text; rewrite Z.eqb_refl; fold fret; split.
  - intros H9; rewrite (numeral_one_digit fret) by (unfold fret; lia).
    split; reflexivity.
  - intros H10; destruct (numeral_last_digits fret H10) as [front E].
    rewrite E, length_append; simpl String.length.
    destruct (Nat.eqb_spec (String.length front + 2) 1); [lia |].
    destruct (Nat.leb_spec 2 (String.length front + 2)); [| lia].
    rewrite last_two_append; split; [reflexivity |]; split; [reflexivity |].
    exists front; reflexivity.
Qed.

(** C8, as the program has it.  For events with frets from 0 up to the
    largest that [str] converts (4300 digits), [render_ascii_tab] does not
    fail: it returns the four lines of the events in the order of their
    start times, in which the chunk of the sounding string is the digit of
    the fret after the fill character ['-'] for a fret from 0 to 9, and the
    last two characters of its numeral, the two digits of the fret modulo
    100, for a fret from 10 on. *)
Theorem render_ascii_tab_fret_cells (tab_events : list TabEvent.t) :
  tab_events <> [] ->
  Forall (fun ev => 0 <= TabEvent.fret ev < 10 ^ max_str_digits)%Z tab_events ->
  exists text,
    render_ascii_tab tab_events = Ok text /\
    split_lines text = text_lines (sorted fltb TabEvent.start_time tab_events) /\
    forall ev, In ev tab_events ->
      let fret := TabEvent.fret ev in
      let cell := chunk_text (TabEvent.string ev) ev in
      chunk (TabEvent.string ev) ev = Ok cell /\
      String.length cell = 2%nat /\
      (fret <= 9 -> cell = String "-" (String (digit fret) ""))%Z /\
      (10 <= fret ->
       cell = last_two (numeral fret) /\
       cell = String (digit (fret / 10 mod 10)) (String (digit (fret mod 10)) "") /\
       exists front, numeral fret = front ++ cell)%Z.
Proof.
  intros Hne B.
  assert (F : Forall printable tab_events).
  { rewrite Forall_forall in B |- *; intros ev Hev _.
    specialize (B ev Hev); lia. }
  exists (join nl (text_lines (sorted fltb TabEvent.start_time tab_events))).
  split; [now apply render_ascii_tab_text |].
  split; [apply split_text_lines |].
  intros ev Hev fret cell.
  rewrite Forall_forall in B; specialize (B ev Hev).
  destruct (chunk_text_digits ev (proj1 B)) as [D9 D10].
  split; [apply chunk_ok; intros _; lia |].
  split; [apply chunk_text_shape |].
  split; [intros H9; exact (proj1 (D9 H9)) | exact D10].
Qed.

Lemma render_ascii_tab_fret_cells_witness :
  exists text,
    render_ascii_tab [long_fret] = Ok text /\
    split_lines text = text_lines (sorted fltb TabEvent.start_time [long_fret]) /\
    forall ev, In ev [long_fret] ->
      let fret := TabEvent.fret ev in
      let cell := chunk_text (TabEvent.string ev) ev in
      chunk (TabEvent.string ev) ev = Ok cell /\
      String.length cell = 2%nat /\
      (fret <= 9 -> cell = String "-" (String (digit fret) ""))%Z /\
      (10 <= fret ->
       cell = last_two (numeral fret) /\
       cell = String (digit (fret / 10 mod 10)) (String (digit (fret mod 10)) "") /\
       exists front, numeral fret = front ++ cell)%Z.
Proof.
  apply (render_ascii_tab_fret_cells [long_fret]).
  - discriminate.
  - constructor; [| constructor].
    split; [simpl; lia |].
    apply Z.lt_trans with 1000000%Z; [reflexivity | apply limit_large].
Defined.

(** C8 as it is stated fails: a fret of 4301 digits makes [str], and with it
    [render_ascii_tab], raise; one digit less and it is truncated. *)
Lemma render_ascii_tab_huge_fret :
  (0 <= TabEvent.fret huge_fret)%Z /\
  render_ascii_tab [huge_fret] = Raise ValueError /\
  chunk 1 (TabEvent.mk (b64 0 0) (b64 1 0) 1 (10 ^ 4300 - 1) 0) = Ok "99".
Proof. vm_compute; repeat split; congruence. Qed.

Example chunk_examples :
  map (fun fret => chunk 1 (TabEvent.mk (b64 0 0) (b64 1 (-1)) 1 fret 0))
      [0; 7; 12; 20; 105; 1234]%Z
  = map Ok ["-0"; "-7"; "12"; "20"; "05"; "34"].
Proof. vm_compute; reflexivity. Qed.

(** The demo of the module: A4, B4, C5, D5 all go to the A string. *)
Example demo_tab :
  exists demo_tabs,
    notes_to_tab demo_notes = Ok demo_tabs /\
    map (fun t => (TabEvent.string t, TabEvent.fret t)) demo_tabs =
      [(2, 0); (2, 2); (2, 3); (2, 5)]%Z /\
    render_ascii_tab demo_tabs =
      Ok (join nl ["E|--------|"; "A|-0-2-3-5|"; "D|--------|"; "G|--------|"]).
Proof.
  eexists; split; [vm_compute; reflexivity |]; split; vm_compute; reflexivity.
Qed.

Local Close Scope string_scope.

(** * Further properties *)

(** ** The range of the instrument *)

Lemma candidates_nonempty_iff (midi : Z) :
  candidates_for_midi midi <> [] <-> 55 <= midi <= 96.
Proof.
  split.
  - intros H; destruct (candidates_for_midi midi) as [| [s f] l] eqn:E;
      [congruence |].
    assert (I : In (s, f) (candidates_for_midi midi)) by (rewrite E; now left).
    apply candidates_for_midi_In in I as [I B]; unfold MAX_FRET in B.
    simpl in I; destruct I as [I | [I | [I | [I | []]]]];
      injection I as _ I; lia.
  - intros H E.
    assert (I : forall s f, ~ In (s, f) (candidates_for_midi midi))
      by (rewrite E; intros ? ? []).
    destruct (Z.le_gt_cases midi 75).
    + apply (I 4 (midi - 55)), candidates_for_midi_In; unfold MAX_FRET.
      replace (midi - (midi - 55)) with 55 by lia; simpl; split; [tauto | lia].
    + apply (I 1 (midi - 76)), candidates_for_midi_In; unfold MAX_FRET.
      replace (midi - (midi - 76)) with 76 by lia; simpl; split; [tauto | lia].
Qed.

(** X1.  A pitch has a candidate exactly when it lies between the open G
    string (55) and fret 20 of the E string (96): the ranges of the four
    strings overlap, so that no pitch in between is left out.  There is one
    candidate for 55..61 and 90..96, two for 62..68 and 83..89, and three for
    69..82. *)
Theorem candidates_for_midi_range (midi : Z) :
  (candidates_for_midi midi <> [] <-> 55 <= midi <= 96) /\
  (55 <= midi <= 96 ->
   List.length (candidates_for_midi midi) =
     if (midi <? 62) || (89 <? midi) then 1%nat
     else if (midi <? 69) || (82 <? midi) then 2%nat
     else 3%nat).
Proof.
  split; [apply candidates_nonempty_iff |].
  intros H; rewrite candidates_for_midi_eq.
  unfold candidate_on, in_fret_range, MAX_FRET; simpl.
  destruct (Z.leb_spec 0 (midi - 55)), (Z.leb_spec (midi - 55) 20),
    (Z.leb_spec 0 (midi - 62)), (Z.leb_spec (midi - 62) 20),
    (Z.leb_spec 0 (midi - 69)), (Z.leb_spec (midi - 69) 20),
    (Z.leb_spec 0 (midi - 76)), (Z.leb_spec (midi - 76) 20);
    destruct (Z.ltb_spec midi 62), (Z.ltb_spec 89 midi),
      (Z.ltb_spec midi 69), (Z.ltb_spec 82 midi);
    simpl; try lia; reflexivity.
Qed.

Lemma candidates_for_midi_range_witness :
  List.length (candidates_for_midi 69) =
    if (69 <? 62) || (89 <? 69) then 1%nat
    else if (69 <? 69) || (82 <? 69) then 2%nat
    else 3%nat.
Proof.
  apply (proj2 (candidates_for_midi_range 69)); lia.
Defined.

(** X2.  The candidates of a pitch are on distinct strings, at most three of
    them, and going to the next lower-pitched string (index plus one) costs
    seven frets more: the fret on string [s] is [midi - (83 - 7 * s)]. *)
Theorem candidates_for_midi_structure (midi : Z) :
  (List.length (candidates_for_midi midi) <= 3)%nat /\
  NoDup (map fst (candidates_for_midi midi)) /\
  forall s f, In (s, f) (candidates_for_midi midi) ->
    1 <= s <= 4 /\ f = midi - (83 - 7 * s).
Proof.
  split; [| split].
  - rewrite candidates_for_midi_eq.
    unfold candidate_on, in_fret_range, MAX_FRET; simpl.
    destruct (Z.leb_spec 0 (midi - 55)), (Z.leb_spec (midi - 55) 20),
      (Z.leb_spec 0 (midi - 62)), (Z.leb_spec (midi - 62) 20),
      (Z.leb_spec 0 (midi - 69)), (Z.leb_spec (midi - 69) 20),
      (Z.leb_spec 0 (midi - 76)), (Z.leb_spec (midi - 76) 20);
      simpl; lia.
  - pose proof (candidates_for_midi_descending midi) as S.
    induction S as [| c l S IH F]; simpl; constructor; [| exact IH].
    rewrite Forall_forall in F; intros Hin.
    apply in_map_iff in Hin as (c' & E & Hc').
    specialize (F c' Hc'); lia.
  - intros s f H; apply candidates_for_midi_In in H as [H _].
    simpl in H.
    destruct H as [H | [H | [H | [H | []]]]]; injection H as <- H; lia.
Qed.

(** ** The outcomes of [choose_position] *)

Section MinOutcomes.
Context {A K : Type}.
Variable ltb : K -> K -> bool.
Variable key : A -> result K.

Lemma min_loop_In l : forall best best_key r,
  min_loop ltb key best best_key l = Ok r -> r = best \/ In r l.
Proof.
  induction l as [| x l IH]; intros best bk r; simpl.
  - intros [= <-]; now left.
  - destruct (key x) as [k | e]; simpl; [| discriminate].
    destruct (ltb k bk); intros H; apply IH in H;
      destruct H as [-> | H]; simpl; auto.
Qed.

Lemma min_by_In l r : min_by ltb key l = Ok r -> In r l.
Proof.
  destruct l as [| x l]; simpl; [discriminate |].
  destruct (key x) as [k | e]; simpl; [| discriminate].
  intros H; apply min_loop_In in H; destruct H as [-> | H]; auto.
Qed.

Lemma min_loop_raise l : forall best best_key e,
  min_loop ltb key best best_key l = Raise e ->
  exists x, In x l /\ key x = Raise e.
Proof.
  induction l as [| x l IH]; intros best bk e; simpl; [discriminate |].
  destruct (key x) as [k | e'] eqn:E; simpl.
  - destruct (ltb k bk); intros H; apply IH in H as (y & ? & ?); eauto.
  - intros [= <-]; eauto.
Qed.

Lemma min_loop_raises l : forall best best_key x e,
  In x l -> key x = Raise e ->
  exists e', min_loop ltb key best best_key l = Raise e' /\
             exists y, In y l /\ key y = Raise e'.
Proof.
  induction l as [| y l IH]; intros best bk x e Hin Hx; [destruct Hin |].
  simpl; destruct (key y) as [k | e'] eqn:E; simpl.
  - destruct Hin as [-> | Hin]; [congruence |].
    destruct (ltb k bk);
      [destruct (IH y k x e Hin Hx) as (e2 & -> & z & ? & ?)
      | destruct (IH best bk x e Hin Hx) as (e2 & -> & z & ? & ?)];
      exists e2; split; trivial; exists z; simpl; auto.
  - exists e'; split; trivial; exists y; simpl; auto.
Qed.
End MinOutcomes.

Lemma score_raises_overflow prev c e : score prev c = Raise e -> e = OverflowError.
Proof.
  destruct c as [s f]; rewrite score_weighted; unfold weighted, float_of_int.
  destruct (binary_normalize prec emax (Z.abs (f - TabEvent.fret prev)) 0 false);
    destruct (binary_normalize prec emax (Z.abs (s - TabEvent.string prev)) 0 false);
    simpl; congruence.
Qed.

(** X3.  [choose_position] has three outcomes.  It returns [None] exactly
    for a pitch outside 55..96, whatever the previous position; a position
    it returns is a candidate of the pitch; and it raises only
    [OverflowError], exactly when there is a previous position from which the
    cost of some candidate overflows. *)
Theorem choose_position_outcomes (midi : Z) (prev : option TabEvent.t) :
  (choose_position midi prev = Ok None <-> midi < 55 \/ 96 < midi) /\
  (forall c, choose_position midi prev = Ok (Some c) ->
             In c (candidates_for_midi midi)) /\
  ((exists e, choose_position midi prev = Raise e) <->
   choose_position midi prev = Raise OverflowError) /\
  (choose_position midi prev = Raise OverflowError <->
   exists p c, prev = Some p /\ In c (candidates_for_midi midi) /\
               score p c = Raise OverflowError).
Proof.
  pose proof (candidates_nonempty_iff midi) as R.
  unfold choose_position.
  destruct (candidates_for_midi midi) as [| c0 cs] eqn:E.
  - repeat split; try discriminate.
    + intros _; destruct (Z.ltb_spec midi 55); [now left | right].
      destruct (Z.ltb_spec 96 midi); [assumption |].
      exfalso; apply (proj2 R); [lia | reflexivity].
    + intros [e H]; discriminate.
    + intros (p & c & _ & [] & _).
  - assert (Hin : 55 <= midi <= 96) by (apply R; discriminate).
    destruct prev as [p |].
    + destruct (min_by fltb (score p) (c0 :: cs)) as [r | e] eqn:M; simpl.
      * repeat split; try discriminate; try lia.
        -- intros c [= <-]; exact (min_by_In _ _ _ _ M).
        -- intros [e H]; discriminate.
        -- intros (q & c & Hq & Hc & Hs).
           assert (p = q) by congruence; subst q.
           simpl in M; destruct (score p c0) as [k0 |] eqn:E0; simpl in M.
           ++ destruct Hc as [<- | Hc]; [congruence |].
              destruct (min_loop_raises fltb (score p) cs c0 k0 c _ Hc Hs)
                as (e' & He' & _); congruence.
           ++ discriminate.
      * assert (Ex : exists x, In x (c0 :: cs) /\ score p x = Raise e).
        { simpl in M; destruct (score p c0) as [k0 |] eqn:E0; simpl in M.
          - apply min_loop_raise in M as (x & ? & ?); exists x; simpl; auto.
          - injection M as <-; exists c0; simpl; auto. }
        destruct Ex as (x & Hx & Sx).
        pose proof (score_raises_overflow _ _ _ Sx); subst e.
        repeat split; try discriminate; try lia; eauto.
    + destruct (sorted pair_ltb (fun sf => (snd sf, fst sf)) (c0 :: cs))
        as [| first rest] eqn:S.
      * apply (f_equal (@List.length _)) in S.
        rewrite sorted_length in S; discriminate.
      * repeat split; try discriminate; try lia.
        -- intros c [= <-].
           apply (proj1 (sorted_In pair_ltb (fun sf => (snd sf, fst sf)) _ _)).
           rewrite S; now left.
        -- intros [e H]; discriminate.
        -- intros (q & c & [=] & _).
Qed.

(** ** The first note *)

(** X4.  With no previous position, a pitch of the range goes to the
    highest-pitched string that reaches it: the G string for 55..61, the D
    string for 62..68, the A string for 69..75 and the E string from 76 on;
    so the first note is within the first six frets unless it is on the E
    string. *)
Theorem choose_position_first_note (midi : Z) :
  55 <= midi <= 96 ->
  choose_position midi None = Ok (Some (first_position midi)) /\
  (fst (first_position midi) <> 1 -> snd (first_position midi) <= 6).
Proof.
  intros H; split.
  - assert (C : forallb check_first_position
                  (map (fun i => 55 + i) (Zrange 42)) = true)
      by (vm_compute; reflexivity).
    rewrite forallb_forall in C.
    assert (I : In midi (map (fun i => 55 + i) (Zrange 42))).
    { apply in_map_iff; exists (midi - 55); split; [lia |].
      apply Zrange_In; simpl; lia. }
    specialize (C _ I); unfold check_first_position in C.
    destruct (choose_position midi None) as [[[s f] |] |]; try discriminate.
    apply andb_true_iff in C as [C1 C2].
    apply Z.eqb_eq in C1, C2.
    destruct (first_position midi) as [s' f']; simpl in *; congruence.
  - unfold first_position.
    destruct (Z.ltb_spec midi 62), (Z.ltb_spec midi 69), (Z.ltb_spec midi 76);
      simpl; lia.
Qed.

Lemma choose_position_first_note_witness :
  choose_position 69 None = Ok (Some (first_position 69)) /\
  (fst (first_position 69) <> 1 -> snd (first_position 69) <= 6).
Proof. apply (choose_position_first_note 69); lia. Defined.

(** ** Staying on the string *)

Lemma first_least_not_less prev l1 c kc l2 c' k' :
  first_least fltb feqb (score prev) l1 c kc l2 ->
  In c' (l1 ++ c :: l2) -> score prev c' = Ok k' -> fltb k' kc = false.
Proof.
  intros (Kc & F1 & F2) Hin Hk'.
  apply in_app_or in Hin as [H | [<- | H]].
  - apply (F1 _ _ H Hk').
  - assert (k' = kc) by congruence; subst.
    destruct (fltb kc kc) eqn:E; [| reflexivity].
    now rewrite (fltb_asym _ _ E) in E.
  - apply (F2 _ _ H Hk').
Qed.

Lemma candidates_fret_formula midi s f :
  In (s, f) (candidates_for_midi midi) ->
  1 <= s <= 4 /\ 0 <= f <= 20 /\ f = midi - (83 - 7 * s).
Proof.
  intros H; apply candidates_for_midi_In in H as [H B]; unfold MAX_FRET in B.
  simpl in H.
  destruct H as [H | [H | [H | [H | []]]]]; injection H as <- H; lia.
Qed.

(** From a position of the data model the exact cost of the choice is the
    least one. *)
Lemma choose_position_least_cost midi prev :
  valid_position (TabEvent.string prev) (TabEvent.fret prev) ->
  candidates_for_midi midi <> [] ->
  exists c,
    choose_position midi (Some prev) = Ok (Some c) /\
    In c (candidates_for_midi midi) /\
    forall c', In c' (candidates_for_midi midi) ->
      (cost prev c <= cost prev c')%Q.
Proof.
  intros Hp Hne.
  assert (Hk : forall c, In c (candidates_for_midi midi) ->
                         exists k, score prev c = Ok k).
  { intros [s f] Hin.
    destruct (score_valid prev s f Hp (candidates_valid _ _ _ Hin)) as (k & ? & _).
    eauto. }
  destruct (choose_position_scored midi prev Hne Hk)
    as (c & kc & l1 & l2 & Hc & Hd & FL).
  assert (Hin : In c (candidates_for_midi midi)) by (rewrite Hd; apply in_elt).
  exists c; split; [assumption |]; split; [assumption |].
  intros c' Hin'; destruct (Hk c' Hin') as [k' Hk'].
  assert (L : fltb k' kc = false).
  { apply (first_least_not_less prev l1 c kc l2 c' k'); trivial.
    now rewrite <- Hd. }
  destruct FL as (Kc & _).
  destruct c as [s f], c' as [s' f'].
  apply (score_order prev (s, f) (s', f') kc k'); trivial;
    eapply candidates_valid; eassumption.
Qed.

(** X5.  From a position of the data model, a pitch that the previous string
    can play at most three frets away from the previous fret is played there:
    the hand stays on the string for intervals up to a minor third; in
    particular a repeated pitch repeats the position. *)
Theorem choose_position_stays_on_string (midi : Z) (prev : TabEvent.t) (f : Z) :
  valid_position (TabEvent.string prev) (TabEvent.fret prev) ->
  In (TabEvent.string prev, f) (candidates_for_midi midi) ->
  Z.abs (f - TabEvent.fret prev) <= 3 ->
  choose_position midi (Some prev) = Ok (Some (TabEvent.string prev, f)).
Proof.
  intros Hp Hin Hd.
  assert (Hne : candidates_for_midi midi <> [])
    by (intros E; rewrite E in Hin; destruct Hin).
  destruct (choose_position_least_cost midi prev Hp Hne)
    as ([s fc] & Hc & Hc_in & Hmin).
  rewrite Hc; do 2 f_equal.
  specialize (Hmin _ Hin); apply cost_le in Hmin; cbn [fst snd] in Hmin.
  apply candidates_fret_formula in Hin as (_ & _ & Ef).
  apply candidates_fret_formula in Hc_in as (Bs & _ & Efc).
  destruct Hp as [Hps _].
  assert (s = TabEvent.string prev) by lia; subst s.
  f_equal; lia.
Qed.

Lemma choose_position_stays_on_string_witness :
  choose_position 72 (Some demo_prev)
  = Ok (Some (TabEvent.string demo_prev, 3)).
Proof.
  apply (choose_position_stays_on_string 72 demo_prev 3).
  - unfold valid_position, MAX_FRET; simpl; lia.
  - vm_compute; tauto.
  - simpl; lia.
Defined.

(** The bound is sharp: four frets away the next string wins when it offers
    the pitch three frets away. *)
Example choose_position_changes_string :
  candidates_for_midi 76 = [(3, 14); (2, 7); (1, 0)] /\
  choose_position 76 (Some (TabEvent.mk (b64 0 0) (b64 1 (-1)) 2 3 72))
  = Ok (Some (1, 0)).
Proof. vm_compute; split; reflexivity. Qed.

(** ** What the resolver keeps *)

Lemma Permutation_filter_compat {A : Type} (P : A -> bool) l l' :
  Permutation l l' -> Permutation (filter P l) (filter P l').
Proof.
  induction 1 as [| x l l' H IH | x y l | l l' l'' H1 IH1 H2 IH2]; simpl.
  - constructor.
  - destruct (P x); [now constructor | assumption].
  - destruct (P x), (P y); try reflexivity; apply perm_swap.
  - now transitivity (filter P l').
Qed.

Lemma placed_origin l out :
  Forall2 placed l out -> map tab_origin out = map note_origin l.
Proof.
  induction 1 as [| n t l out (Es & Ee & Em & _) F IH]; simpl; [reflexivity |].
  unfold tab_origin at 1, note_origin at 1; rewrite Es, Ee, Em, IH; reflexivity.
Qed.

Lemma filter_all {A : Type} (P : A -> bool) l :
  Forall (fun x => P x = true) l -> filter P l = l.
Proof.
  induction 1 as [| x l Hx F IH]; simpl; [reflexivity |].
  now rewrite Hx, IH.
Qed.

Lemma filter_length_bound {A : Type} (P : A -> bool) l :
  (List.length (filter P l) <= List.length l)%nat.
Proof.
  induction l as [| x l IH]; simpl; [lia |].
  destruct (P x); simpl; lia.
Qed.

(** X6.  The resolver neither loses nor invents a note: the start time, end
    time and pitch of the events are those of the playable notes, each as
    many times as it is given, whatever the times are.  So there are at most
    as many events as notes, and as many when every pitch is in 55..96. *)
Theorem notes_to_tab_keeps_playable (notes : list NoteEvent.t) :
  exists out,
    notes_to_tab notes = Ok out /\
    Permutation (map tab_origin out) (map note_origin (filter playable notes)) /\
    (List.length out <= List.length notes)%nat /\
    (Forall (fun n => 55 <= NoteEvent.midi n <= 96) notes ->
     List.length out = List.length notes).
Proof.
  destruct (notes_to_tab_placed notes) as (out & Hr & Hf).
  exists out; split; [assumption |].
  assert (P : Permutation (map tab_origin out)
                (map note_origin (filter playable notes))).
  { rewrite (placed_origin _ _ Hf).
    apply Permutation_map, Permutation_filter_compat, sorted_perm. }
  assert (L : List.length out = List.length (filter playable notes)).
  { apply Permutation_length in P; now rewrite !length_map in P. }
  split; [assumption |]; split.
  - rewrite L; apply filter_length_bound.
  - intros H; rewrite L, filter_all; [reflexivity |].
    apply Forall_forall; intros n Hn.
    rewrite Forall_forall in H; specialize (H n Hn).
    unfold playable.
    destruct (candidates_for_midi (NoteEvent.midi n)) eqn:E; [| reflexivity].
    exfalso; revert E; now apply candidates_nonempty_iff.
Qed.

(** ** The greedy chain *)

Lemma choose_position_best midi prev :
  prev_ok prev -> candidates_for_midi midi <> [] ->
  exists s f,
    choose_position midi prev = Ok (Some (s, f)) /\
    forall t0 t1, best_from prev (TabEvent.mk t0 t1 s f midi).
Proof.
  intros Hp Hne; destruct prev as [p |].
  - destruct (choose_position_least_cost midi p Hp Hne)
      as ([s f] & Hc & Hin & Hmin).
    exists s, f; split; [assumption |].
    intros t0 t1; split; [exact Hin | exact Hmin].
  - destruct (choose_position_first midi Hne) as ([s f] & Hc & Hin & Hmin).
    exists s, f; split; [assumption |].
    intros t0 t1; split; [exact Hin |].
    intros s' f' H'; specialize (Hmin _ H'); simpl in *; lia.
Qed.

Lemma resolve_loop_chain l : forall tab_events prev_tab,
  prev_ok prev_tab ->
  exists new,
    resolve_loop l tab_events prev_tab = Ok (tab_events ++ new) /\
    chain_from prev_tab new.
Proof.
  induction l as [| n l IH]; intros acc prev Hp.
  - exists []; simpl; rewrite app_nil_r; auto.
  - destruct (playable n) eqn:P.
    + destruct (choose_position_best (NoteEvent.midi n) prev Hp
                  (playable_true _ P)) as (s & f & Hc & Hb).
      cbn [resolve_loop]; rewrite Hc; cbn [bind].
      set (tab := TabEvent.mk (NoteEvent.start_time n) (NoteEvent.end_time n)
                    s f (NoteEvent.midi n)).
      destruct (IH (acc ++ [tab]) (Some tab)) as (new & Hr & Hn).
      { destruct (Hb (NoteEvent.start_time n) (NoteEvent.end_time n)) as [I _].
        exact (candidates_valid _ _ _ I). }
      exists (tab :: new); split.
      * rewrite Hr, <- app_assoc; reflexivity.
      * split; [apply Hb | exact Hn].
    + rewrite (resolve_loop_skip _ _ _ _ (playable_false _ P)).
      apply IH, Hp.
Qed.

(** X7.  The events of a result form a greedy chain: the first one is on the
    least fret, and the least string on that fret, of its pitch, and every
    later one is on a candidate of least exact cost
    [|fret - prev.fret| + 0.7 * |string - prev.string|] from the event just
    before it, notes without candidate in between being of no account. *)
Theorem notes_to_tab_greedy_chain (notes : list NoteEvent.t) :
  exists out, notes_to_tab notes = Ok out /\ chain_from None out.
Proof.
  rewrite notes_to_tab_loop.
  destruct (resolve_loop_chain (sorted fltb NoteEvent.start_time notes) [] None I)
    as (new & Hr & Hc).
  exists new; auto.
Qed.

(** ** The order of the input *)

Section SortedInput.
Context {A K : Type}.
Variable ltb : K -> K -> bool.
Variable key : A -> K.
Variable good : K -> Prop.
Hypothesis ltb_asym : forall a b, ltb a b = true -> ltb b a = false.
Hypothesis nlt_trans : forall a b c, good a -> good b -> good c ->
  ltb b a = false -> ltb c b = false -> ltb c a = false.

(** A list that is in order already is left as it is. *)
Lemma sorted_of_ordered l :
  StronglySorted (key_le ltb key) l -> sorted ltb key l = l.
Proof.
  induction 1 as [| x l S IH F]; simpl; [reflexivity |].
  rewrite IH; destruct l as [| y l]; [reflexivity |].
  inversion F as [| ? ? Hy _]; subst; simpl.
  unfold key_le in Hy; now rewrite Hy.
Qed.

(** When all keys differ, the result does not depend on the order of the
    input. *)
Lemma sorted_of_permutation l l' :
  Forall (fun y => good (key y)) l ->
  (forall x, In x l -> filter (same_key ltb key (key x)) l = [x]) ->
  Permutation l l' ->
  sorted ltb key l' = sorted ltb key l.
Proof.
  intros G D Hp.
  assert (G' : Forall (fun y => good (key y)) l').
  { rewrite Forall_forall in G |- *; intros y Hy; apply G.
    exact (Permutation_in _ (Permutation_sym Hp) Hy). }
  apply (sorted_unique ltb key good ltb_asym nlt_trans); trivial.
  - transitivity l'; [apply sorted_perm | now apply Permutation_sym].
  - now apply (sorted_ordered ltb key good).
  - intros x Hx.
    rewrite sorted_filter.
    + rewrite (D x Hx); apply Permutation_length_1_inv.
      rewrite <- (D x Hx); now apply Permutation_filter_compat.
    + rewrite Forall_forall in G, G'.
      intros a b Ha Hb Pa Pb; unfold same_key in Pa, Pb.
      apply andb_true_iff in Pa as [_ Pa], Pb as [Pb _].
      apply negb_true_iff in Pa, Pb.
      apply (nlt_trans (key a) (key x) (key b)); auto.
Qed.
End SortedInput.

Lemma same_key_feqb {A : Type} (key : A -> float) k a :
  is_nan k = false -> is_nan (key a) = false ->
  same_key fltb key k a = feqb (key a) k.
Proof.
  intros Nk Na; unfold same_key.
  destruct (frank k) as [x |] eqn:Hk; [| apply frank_nan in Hk; congruence].
  destruct (frank (key a)) as [y |] eqn:Ha;
    [| apply frank_nan in Ha; congruence].
  destruct (lex3_cases y x) as [[_ L] | [[_ L] | [_ L]]].
  - assert (E1 : fltb (key a) k = true) by (apply fltb_rank; eauto).
    rewrite E1, feqb_sym, (fltb_not_feqb _ _ E1); reflexivity.
  - subst y.
    assert (E : feqb (key a) k = true) by (apply feqb_rank; eauto).
    rewrite E.
    rewrite (same_time_not_before k (key a) k), (same_time_not_before k k (key a));
      trivial; apply feqb_rank; eauto.
  - assert (E1 : fltb k (key a) = true) by (apply fltb_rank; eauto).
    rewrite E1, (fltb_asym _ _ E1), (fltb_not_feqb _ _ E1); reflexivity.
Qed.

Lemma filter_class_empty {A : Type} (key : A -> float) k l :
  is_nan k = false ->
  (forall z, In z l -> is_nan (key z) = false /\ feqb (key z) k = false) ->
  filter (same_key fltb key k) l = [].
Proof.
  intros Nk; induction l as [| z l IH]; intros H; simpl; [reflexivity |].
  destruct (H z (or_introl eq_refl)) as [Nz Ez].
  rewrite (same_key_feqb key k z Nk Nz), Ez.
  apply IH; intros; apply H; now right.
Qed.

(** Among floats without NaN, pairwise different keys make classes of one. *)
Lemma distinct_times_classes {A : Type} (key : A -> float) l :
  Forall (fun a => is_nan (key a) = false) l ->
  ForallOrdPairs (fun a b => feqb (key a) (key b) = false) l ->
  forall x, In x l -> filter (same_key fltb key (key x)) l = [x].
Proof.
  intros N D; induction D as [| y l Fy D IH]; intros x Hx; [destruct Hx |].
  inversion N as [| ? ? Ny N']; subst.
  rewrite Forall_forall in Fy.
  assert (N'' : forall z, In z l -> is_nan (key z) = false)
    by (now apply Forall_forall).
  assert (Nx : is_nan (key x) = false)
    by (destruct Hx as [<- | Hx]; auto).
  simpl; rewrite (same_key_feqb key (key x) y Nx Ny).
  destruct Hx as [<- | Hx].
  - assert (E : feqb (key y) (key y) = true).
    { destruct (frank (key y)) as [r |] eqn:R;
        [apply feqb_rank; eauto | apply frank_nan in R; congruence]. }
    rewrite E; f_equal.
    apply filter_class_empty; trivial.
    intros z Hz; split; [auto |].
    rewrite feqb_sym; auto.
  - rewrite (Fy x Hx); now apply IH.
Qed.

(** X8.  The caller need not sort: when the start times are pairwise
    different (and none is a NaN), every reordering of the notes gives the
    same result. *)
Theorem notes_to_tab_any_order (notes notes' : list NoteEvent.t) :
  Forall (fun n => is_nan (NoteEvent.start_time n) = false) notes ->
  ForallOrdPairs
    (fun a b => feqb (NoteEvent.start_time a) (NoteEvent.start_time b) = false)
    notes ->
  Permutation notes notes' ->
  notes_to_tab notes' = notes_to_tab notes.
Proof.
  intros N D P; rewrite !notes_to_tab_loop; f_equal.
  apply (sorted_of_permutation fltb NoteEvent.start_time
           (fun k => is_nan k = false) fltb_asym fltb_nlt_trans); trivial.
  now apply distinct_times_classes.
Qed.

Lemma notes_to_tab_any_order_witness :
  notes_to_tab (rev demo_notes) = notes_to_tab demo_notes.
Proof.
  apply (notes_to_tab_any_order demo_notes (rev demo_notes)).
  - repeat constructor.
  - repeat constructor.
  - apply Permutation_rev.
Defined.

(** With equal start times the order of the input does matter: the note
    given first is placed first, and the other one after it. *)
Example notes_to_tab_equal_times :
  let a := demo_note (b64 0 0) (b64 1 0) 55 in
  let b := demo_note (b64 0 0) (b64 1 0) 76 in
  (exists out, notes_to_tab [a; b] = Ok out /\
     map (fun t => (TabEvent.string t, TabEvent.fret t)) out = [(4, 0); (1, 0)]) /\
  (exists out, notes_to_tab [b; a] = Ok out /\
     map (fun t => (TabEvent.string t, TabEvent.fret t)) out = [(1, 0); (4, 0)]).
Proof. split; eexists; split; vm_compute; reflexivity. Qed.

(** ** What the tab shows *)

Local Open Scope string_scope.

Lemma numeral_length fret :
  0 <= fret <= 99 ->
  String.length (numeral fret) = if (fret <? 10)%Z then 1%nat else 2%nat.
Proof.
  intros H.
  assert (C : forallb check_numeral_length (Zrange 100) = true)
    by (vm_compute; reflexivity).
  rewrite forallb_forall in C.
  apply Nat.eqb_eq, (C fret), Zrange_In; simpl; lia.
Qed.

Lemma chunk_text_pad2 s ev :
  0 <= TabEvent.fret ev <= 99 -> chunk_text s ev = cell_of s ev.
Proof.
  intros H; unfold chunk_text, cell_of, pad2.
  destruct (s =? TabEvent.string ev)%Z; [| reflexivity].
  pose proof (numeral_length _ H) as L.
  destruct (Z.ltb_spec (TabEvent.fret ev) 10); rewrite L; simpl; [reflexivity |].
  unfold last_two; rewrite L; simpl Nat.sub.
  rewrite <- L at 1; apply substring_all.
Qed.

(** X9.  Up to fret 99 nothing is lost: the cell of the sounding string is
    the numeral of the fret, after a ['-'] when it has one digit, and two
    different frets never give the same cell, so that the text of a tab
    determines the frets. *)
Theorem chunk_lossless :
  (forall ev, 0 <= TabEvent.fret ev <= 99 ->
     chunk (TabEvent.string ev) ev = Ok (pad2 (TabEvent.fret ev))) /\
  (forall f f', 0 <= f <= 99 -> 0 <= f' <= 99 -> pad2 f = pad2 f' -> f = f').
Proof.
  split.
  - intros ev H; rewrite chunk_ok.
    + rewrite (chunk_text_pad2 _ _ H); unfold cell_of.
      now rewrite Z.eqb_refl.
    + intros _; pose proof limit_large; lia.
  - intros f f' H H' E.
    assert (C : forallb (fun a => forallb (check_pad2_differs a) (Zrange 100))
                        (Zrange 100) = true) by (vm_compute; reflexivity).
    rewrite forallb_forall in C.
    assert (I : In f (Zrange 100)) by (apply Zrange_In; simpl; lia).
    assert (I' : In f' (Zrange 100)) by (apply Zrange_In; simpl; lia).
    specialize (C f I); rewrite forallb_forall in C; specialize (C f' I').
    unfold check_pad2_differs in C; rewrite E, String.eqb_refl in C.
    rewrite orb_false_r in C; now apply Z.eqb_eq.
Qed.

Lemma chunk_lossless_witness :
  chunk 2 (TabEvent.mk (b64 0 0) (b64 1 0) 2 17 86) = Ok (pad2 17) /\
  (pad2 7 = pad2 7 -> 7 = 7).
Proof.
  split.
  - apply (proj1 chunk_lossless (TabEvent.mk (b64 0 0) (b64 1 0) 2 17 86)).
    simpl; lia.
  - apply (proj2 chunk_lossless 7 7); lia.
Defined.

(** X10.  Beyond that range the cell is ambiguous, as long as [str]
    converts the frets (fewer than 4301 digits): a fret from 10 on shows as
    the same fret plus a multiple of 100 does, and a fret from -9 to -1
    shows as its absolute value does, the minus sign of the numeral being the
    fill character. *)
Theorem chunk_ambiguous (ev ev' : TabEvent.t) :
  (10 <= TabEvent.fret ev ->
   (exists k, 0 <= k /\ TabEvent.fret ev' = TabEvent.fret ev + 100 * k) ->
   TabEvent.fret ev' < 10 ^ max_str_digits ->
   exists cell,
     chunk (TabEvent.string ev) ev = Ok cell /\
     chunk (TabEvent.string ev') ev' = Ok cell) /\
  (1 <= TabEvent.fret ev <= 9 ->
   TabEvent.fret ev' = - TabEvent.fret ev ->
   exists cell,
     chunk (TabEvent.string ev) ev = Ok cell /\
     chunk (TabEvent.string ev') ev' = Ok cell).
Proof.
  assert (T : forall f t, TabEvent.fret t = f -> 10 <= f ->
            chunk_text (TabEvent.string t) t =
            String (digit (f / 10 mod 10)) (String (digit (f mod 10)) "")).
  { intros f t <- H10.
    exact (proj1 (proj2 (proj2 (chunk_text_digits t ltac:(lia)) H10))). }
  split.
  - intros H (k & Hk & E) B.
    exists (chunk_text (TabEvent.string ev) ev).
    rewrite !chunk_ok by (intros _; lia).
    split; [reflexivity |]; f_equal.
    rewrite (T _ ev eq_refl H), (T _ ev' eq_refl) by lia.
    rewrite E.
    replace ((TabEvent.fret ev + 100 * k) mod 10)
      with (TabEvent.fret ev mod 10)
      by (replace (100 * k) with (10 * k * 10) by lia;
          now rewrite Z.mod_add by lia).
    replace ((TabEvent.fret ev + 100 * k) / 10 mod 10)
      with (TabEvent.fret ev / 10 mod 10).
    + reflexivity.
    + replace (TabEvent.fret ev + 100 * k)
        with (TabEvent.fret ev + k * 10 * 10) by lia.
      rewrite Z.div_add, Z.mod_add by lia; reflexivity.
  - intros H E.
    exists (chunk_text (TabEvent.string ev) ev).
    pose proof limit_large as L.
    rewrite !chunk_ok by (intros _; lia).
    split; [reflexivity |]; f_equal.
    unfold chunk_text; rewrite !Z.eqb_refl, E.
    assert (C : TabEvent.fret ev = 1 \/ TabEvent.fret ev = 2 \/
                TabEvent.fret ev = 3 \/ TabEvent.fret ev = 4 \/
                TabEvent.fret ev = 5 \/ (6 <= TabEvent.fret ev <= 9)) by lia.
    destruct C as [-> | [-> | [-> | [-> | [-> | C]]]]]; try reflexivity.
    assert (C' : TabEvent.fret ev = 6 \/ TabEvent.fret ev = 7 \/
                 TabEvent.fret ev = 8 \/ TabEvent.fret ev = 9) by lia.
    destruct C' as [-> | [-> | [-> | ->]]]; reflexivity.
Qed.

Lemma chunk_ambiguous_witness :
  (exists cell,
     chunk 1 (TabEvent.mk (b64 0 0) (b64 1 0) 1 12 88) = Ok cell /\
     chunk 1 (TabEvent.mk (b64 0 0) (b64 1 0) 1 112 188) = Ok cell) /\
  (exists cell,
     chunk 1 (TabEvent.mk (b64 0 0) (b64 1 0) 1 5 81) = Ok cell /\
     chunk 1 (TabEvent.mk (b64 0 0) (b64 1 0) 1 (-5) 71) = Ok cell).
Proof.
  split.
  - apply (proj1 (chunk_ambiguous
                    (TabEvent.mk (b64 0 0) (b64 1 0) 1 12 88)
                    (TabEvent.mk (b64 0 0) (b64 1 0) 1 112 188))).
    + simpl; lia.
    + exists 1; simpl; lia.
    + apply Z.lt_trans with 1000000%Z; [reflexivity | apply limit_large].
  - apply (proj2 (chunk_ambiguous
                    (TabEvent.mk (b64 0 0) (b64 1 0) 1 5 81)
                    (TabEvent.mk (b64 0 0) (b64 1 0) 1 (-5) 71))).
    + simpl; lia.
    + reflexivity.
Defined.

(** X11.  The renderer need not be given its events in order either: when
    the start times are pairwise different (and none is a NaN), every
    reordering of the events gives the same text. *)
Theorem render_ascii_tab_any_order (evs evs' : list TabEvent.t) :
  Forall (fun e => is_nan (TabEvent.start_time e) = false) evs ->
  ForallOrdPairs
    (fun a b => feqb (TabEvent.start_time a) (TabEvent.start_time b) = false)
    evs ->
  Permutation evs evs' ->
  render_ascii_tab evs' = render_ascii_tab evs.
Proof.
  intros N D P.
  destruct evs as [| e evs0].
  - apply Permutation_nil in P; subst; reflexivity.
  - destruct evs' as [| e' evs0'];
      [apply Permutation_sym, Permutation_nil in P; discriminate |].
    unfold render_ascii_tab, render_lines.
    rewrite (sorted_of_permutation fltb TabEvent.start_time
               (fun k => is_nan k = false) fltb_asym fltb_nlt_trans
               (e :: evs0) (e' :: evs0')); trivial.
    now apply distinct_times_classes.
Qed.

Lemma render_ascii_tab_any_order_witness :
  render_ascii_tab
    [ TabEvent.mk (b64 1 0) (b64 2 0) 1 3 79; demo_prev ]
  = render_ascii_tab
    [ demo_prev; TabEvent.mk (b64 1 0) (b64 2 0) 1 3 79 ].
Proof.
  apply (render_ascii_tab_any_order
           [ demo_prev; TabEvent.mk (b64 1 0) (b64 2 0) 1 3 79 ]).
  - repeat constructor.
  - repeat constructor.
  - apply perm_swap.
Defined.

Lemma map_constant {A B : Type} (f : A -> B) (c : B) l :
  (forall x, In x l -> f x = c) -> map f l = repeat c (List.length l).
Proof.
  induction l as [| x l IH]; intros H; simpl; [reflexivity |].
  rewrite (H x (or_introl eq_refl)), IH; [reflexivity |].
  intros; apply H; now right.
Qed.

(** X12.  An event on a string that the instrument does not have (an index
    outside 1..4) is not refused: it takes a column in which every line
    shows the fill chunk.  A tab of such events alone is all dashes. *)
Theorem render_ascii_tab_foreign_strings (evs : list TabEvent.t) :
  evs <> [] ->
  Forall (fun ev => (TabEvent.string ev < 1 \/ 4 < TabEvent.string ev)%Z) evs ->
  render_ascii_tab evs =
  Ok (join nl (map (fun label => label ++ dashes (List.length evs) ++ "|")
                   ["E|"; "A|"; "D|"; "G|"])).
Proof.
  intros Hne F.
  assert (P : Forall printable evs).
  { rewrite Forall_forall in F |- *; intros ev Hev Hs.
    specialize (F ev Hev); lia. }
  rewrite (render_ascii_tab_text _ Hne P); f_equal; f_equal.
  assert (C : forall s, (1 <= s <= 4)%Z ->
            map (chunk_text s) (sorted fltb TabEvent.start_time evs)
            = repeat "--" (List.length evs)).
  { intros s Hs.
    rewrite <- (sorted_length fltb TabEvent.start_time evs).
    apply map_constant; intros ev Hev.
    apply (proj1 (sorted_In _ _ _ _)) in Hev.
    rewrite Forall_forall in F; specialize (F ev Hev).
    unfold chunk_text; destruct (Z.eqb_spec s (TabEvent.string ev)); [lia |].
    reflexivity. }
  unfold text_lines; cbn [map]; unfold dashes.
  rewrite !C by lia; reflexivity.
Qed.

Lemma render_ascii_tab_foreign_strings_witness :
  render_ascii_tab
    [ TabEvent.mk (b64 0 0) (b64 1 0) 5 3 50;
      TabEvent.mk (b64 1 0) (b64 2 0) 0 12 90 ]
  = Ok (join nl (map (fun label => label ++ dashes 2 ++ "|")
                     ["E|"; "A|"; "D|"; "G|"])).
Proof.
  apply (render_ascii_tab_foreign_strings
           [ TabEvent.mk (b64 0 0) (b64 1 0) 5 3 50;
             TabEvent.mk (b64 1 0) (b64 2 0) 0 12 90 ]).
  - discriminate.
  - repeat constructor; simpl; lia.
Defined.

(** ** When the renderer fails *)

Lemma chunk_cases s ev :
  chunk s ev = Raise ValueError \/ chunk s ev = Ok (chunk_text s ev).
Proof.
  destruct (Z.lt_ge_cases (Z.abs (TabEvent.fret ev)) (10 ^ max_str_digits))
    as [B | B].
  - right; apply chunk_ok; intros _; exact B.
  - destruct (Z.eq_dec s (TabEvent.string ev)) as [-> | N].
    + left; now apply chunk_raises.
    + right; apply chunk_ok; intros E; contradiction.
Qed.

Lemma emit_column_cases ev columns :
  emit_column columns ev = Raise ValueError \/
  exists columns',
    emit_column columns ev = Ok columns' /\ map fst columns' = map fst columns.
Proof.
  induction columns as [| [s chunks] columns IH];
    [right; exists []; split; reflexivity |].
  cbn [emit_column].
  destruct (chunk_cases s ev) as [-> | ->]; [left; reflexivity |].
  cbn [bind]; destruct IH as [-> | (c' & -> & E)]; [left; reflexivity |].
  right; eexists; split; [reflexivity |].
  cbn [map fst]; now rewrite E.
Qed.

Lemma emit_column_raises ev columns :
  In (TabEvent.string ev) (map fst columns) ->
  (10 ^ max_str_digits <= Z.abs (TabEvent.fret ev))%Z ->
  emit_column columns ev = Raise ValueError.
Proof.
  intros Hin B; induction columns as [| [s chunks] columns IH];
    [destruct Hin |].
  cbn [emit_column].
  destruct (Z.eq_dec s (TabEvent.string ev)) as [-> | N].
  - rewrite (chunk_raises _ B); reflexivity.
  - destruct (chunk_cases s ev) as [-> | ->]; [reflexivity |].
    cbn [bind]; rewrite IH; [reflexivity |].
    destruct Hin as [E | Hin]; [simpl in E; congruence | exact Hin].
Qed.

Lemma emit_columns_raises evs : forall columns,
  (exists ev, In ev evs /\ In (TabEvent.string ev) (map fst columns) /\
              (10 ^ max_str_digits <= Z.abs (TabEvent.fret ev))%Z) ->
  emit_columns evs columns = Raise ValueError.
Proof.
  induction evs as [| ev evs IH]; intros columns (x & Hx & Hin & B);
    [destruct Hx |].
  cbn [emit_columns].
  destruct (emit_column_cases ev columns) as [-> | (c' & E & K)];
    [reflexivity |].
  rewrite E; cbn [bind]; apply IH.
  destruct Hx as [-> | Hx].
  - rewrite (emit_column_raises _ _ Hin B) in E; discriminate.
  - exists x; rewrite K; auto.
Qed.

Lemma printable_cases evs :
  Forall printable evs \/
  exists ev, In ev evs /\ (1 <= TabEvent.string ev <= 4)%Z /\
             (10 ^ max_str_digits <= Z.abs (TabEvent.fret ev))%Z.
Proof.
  induction evs as [| ev evs [IH | (x & Hx & H)]].
  - left; constructor.
  - destruct (Z.lt_ge_cases (Z.abs (TabEvent.fret ev)) (10 ^ max_str_digits))
      as [B | B]; [left; constructor; [intros _; exact B | exact IH] |].
    destruct (Z_le_dec 1 (TabEvent.string ev)) as [L1 |];
      [| left; constructor; [intros ?; lia | exact IH]].
    destruct (Z_le_dec (TabEvent.string ev) 4) as [L4 |];
      [| left; constructor; [intros ?; lia | exact IH]].
    right; exists ev; split; [now left | split; [lia | exact B]].
  - right; exists x; split; [now right | exact H].
Qed.

(** X15.  The renderer fails on one kind of input only: an event on one of
    the four strings whose fret has more digits than [str] converts.  It
    then raises [ValueError], and it raises nothing else; events on other
    strings may carry any fret, which is never converted. *)
Theorem render_ascii_tab_failure (tab_events : list TabEvent.t) :
  (render_ascii_tab tab_events = Raise ValueError <->
   exists ev, In ev tab_events /\ (1 <= TabEvent.string ev <= 4)%Z /\
              (10 ^ max_str_digits <= Z.abs (TabEvent.fret ev))%Z) /\
  (forall e, render_ascii_tab tab_events = Raise e -> e = ValueError) /\
  ((forall ev, In ev tab_events -> printable ev) ->
   exists text, render_ascii_tab tab_events = Ok text).
Proof.
  assert (G : forall evs, Forall printable evs ->
            exists text, render_ascii_tab evs = Ok text).
  { intros [| ev evs] F; [eexists; reflexivity |].
    eexists; apply render_ascii_tab_text; [discriminate | exact F]. }
  assert (B : (exists ev, In ev tab_events /\ (1 <= TabEvent.string ev <= 4)%Z /\
                 (10 ^ max_str_digits <= Z.abs (TabEvent.fret ev))%Z) ->
              render_ascii_tab tab_events = Raise ValueError).
  { intros (x & Hx & Hs & Hf).
    destruct tab_events as [| ev evs]; [destruct Hx |].
    unfold render_ascii_tab, render_lines.
    rewrite emit_columns_raises; [reflexivity |].
    exists x; split; [now apply (proj2 (sorted_In _ _ _ _)) |].
    split; [| exact Hf].
    assert (C : (TabEvent.string x = 1 \/ TabEvent.string x = 2 \/
                 TabEvent.string x = 3 \/ TabEvent.string x = 4)%Z) by lia.
    simpl; intuition auto. }
  destruct (printable_cases tab_events) as [F | E].
  - destruct (G _ F) as (text & R).
    split; [split; [rewrite R; discriminate |] |
            split; [rewrite R; discriminate | intros _; now exists text]].
    intros (x & Hx & Hs & Hf); rewrite Forall_forall in F.
    specialize (F x Hx Hs); lia.
  - split; [split; [intros _; exact E | exact B] |].
    split; [rewrite (B E); congruence |].
    intros F; apply G, Forall_forall, F.
Qed.

(** ** From the notes to the text *)

Lemma notes_to_tab_ordered notes :
  Forall (fun n => is_nan (NoteEvent.start_time n) = false) notes ->
  exists out,
    notes_to_tab notes = Ok out /\
    Forall2 placed (filter playable (sorted fltb NoteEvent.start_time notes)) out /\
    StronglySorted (key_le fltb TabEvent.start_time) out.
Proof.
  intros Hn.
  destruct (notes_to_tab_placed notes) as (out & Hr & Hf).
  exists out; split; [assumption |]; split; [assumption |].
  pose proof (sorted_ordered fltb NoteEvent.start_time
                (fun k => is_nan k = false) fltb_asym fltb_nlt_trans
                notes Hn) as S.
  apply (StronglySorted_filter _ playable) in S.
  refine (StronglySorted_Forall2 _ _ _ _ _ _ Hf S).
  intros a b a' b' _ _ (Ea & _) (Eb & _) L.
  unfold key_le in *; now rewrite Ea, Eb.
Qed.

(** X13.  Rendering the result of the resolver draws its events as they
    are: every event is on a string of the instrument and within the fret
    ceiling, and, when no start time is a NaN and some note is playable, the
    text is the four lines E, A, D, G with one column per event, in the order
    of the events, showing the fret in full on the line of its string and
    the fill chunk on the three others. *)
Theorem render_of_notes_to_tab (notes : list NoteEvent.t) :
  Forall (fun n => is_nan (NoteEvent.start_time n) = false) notes ->
  exists out,
    notes_to_tab notes = Ok out /\
    Forall (fun t => (1 <= TabEvent.string t <= 4)%Z /\
                     (0 <= TabEvent.fret t <= 20)%Z) out /\
    (out <> [] ->
     render_ascii_tab out =
     Ok (join nl [ tab_line "E|" 1 out; tab_line "A|" 2 out;
                   tab_line "D|" 3 out; tab_line "G|" 4 out ])).
Proof.
  intros Hn.
  destruct (notes_to_tab_ordered notes Hn) as (out & Hr & Hf & S).
  exists out; split; [assumption |].
  assert (V : Forall (fun t => (1 <= TabEvent.string t <= 4)%Z /\
                               (0 <= TabEvent.fret t <= 20)%Z) out).
  { clear Hr S; induction Hf as [| n t l out (_ & _ & _ & Hin) F IH];
      constructor; [| exact IH].
    exact (candidates_valid _ _ _ Hin). }
  split; [exact V |].
  assert (P : Forall printable out).
  { rewrite Forall_forall in V |- *; intros t Ht _.
    destruct (V t Ht) as [_ B]; pose proof limit_large; lia. }
  intros Hne; rewrite (render_ascii_tab_text _ Hne P).
  rewrite (sorted_of_ordered fltb TabEvent.start_time out S).
  assert (C : forall s, map (chunk_text s) out = map (cell_of s) out).
  { intros s; apply map_ext_in; intros t Ht.
    rewrite Forall_forall in V; destruct (V t Ht) as [_ B].
    apply chunk_text_pad2; lia. }
  unfold text_lines; cbn [map]; unfold tab_line; rewrite !C; reflexivity.
Qed.

Lemma render_of_notes_to_tab_witness :
  exists out,
    notes_to_tab notes_with_gap = Ok out /\
    Forall (fun t => (1 <= TabEvent.string t <= 4)%Z /\
                     (0 <= TabEvent.fret t <= 20)%Z) out /\
    (out <> [] ->
     render_ascii_tab out =
     Ok (join nl [ tab_line "E|" 1 out; tab_line "A|" 2 out;
                   tab_line "D|" 3 out; tab_line "G|" 4 out ])).
Proof.
  apply (render_of_notes_to_tab notes_with_gap).
  repeat constructor.
Defined.

Local Close Scope string_scope.

(** ** No lookahead *)

Lemma resolve_loop_app l1 : forall tab_events prev_tab,
  prev_ok prev_tab ->
  exists new prev',
    resolve_loop l1 tab_events prev_tab = Ok (tab_events ++ new) /\
    prev_ok prev' /\
    forall l2, resolve_loop (l1 ++ l2) tab_events prev_tab =
               resolve_loop l2 (tab_events ++ new) prev'.
Proof.
  induction l1 as [| n l1 IH]; intros acc prev Hp.
  - exists [], prev; simpl; rewrite app_nil_r; auto.
  - destruct (playable n) eqn:P.
    + destruct (choose_position_total (NoteEvent.midi n) prev Hp
                  (playable_true _ P)) as ([s f] & Hc & Hin).
      set (tab := TabEvent.mk (NoteEvent.start_time n) (NoteEvent.end_time n)
                    s f (NoteEvent.midi n)).
      destruct (IH (acc ++ [tab]) (Some tab)) as (new & prev' & Hr & Hp' & Hl).
      { exact (candidates_valid _ _ _ Hin). }
      exists (tab :: new), prev'.
      replace (acc ++ tab :: new) with ((acc ++ [tab]) ++ new)
        by (rewrite <- app_assoc; reflexivity).
      split; [| split; [assumption |]].
      * cbn [resolve_loop]; rewrite Hc; cbn [bind]; exact Hr.
      * intros l2; rewrite <- Hl.
        cbn [app resolve_loop]; rewrite Hc; reflexivity.
    + destruct (IH acc prev Hp) as (new & prev' & Hr & Hp' & Hl).
      exists new, prev'; split; [| split; [assumption |]].
      * now rewrite (resolve_loop_skip _ _ _ _ (playable_false _ P)).
      * intros l2; rewrite <- Hl.
        cbn [app]; now rewrite (resolve_loop_skip _ _ _ _ (playable_false _ P)).
Qed.

Lemma StronglySorted_prefix {A : Type} (R : A -> A -> Prop) l1 l2 :
  StronglySorted R (l1 ++ l2) -> StronglySorted R l1.
Proof.
  induction l1 as [| x l1 IH]; simpl; intros S; [constructor |].
  inversion S as [| ? ? S' F]; subst; constructor; [now apply IH |].
  rewrite Forall_forall in F |- *; intros y Hy; apply F, in_or_app; now left.
Qed.

Lemma time_ordered_key_le notes :
  StronglySorted
    (fun a b => fleb (NoteEvent.start_time a) (NoteEvent.start_time b) = true)
    notes ->
  StronglySorted (key_le fltb NoteEvent.start_time) notes.
Proof.
  induction 1 as [| x l S IH F]; constructor; [assumption |].
  rewrite Forall_forall in F |- *; intros y Hy.
  apply fleb_fltb_false, F, Hy.
Qed.

(** X14.  The resolver looks at no later note: on notes given in time
    order, the result for the first notes is the beginning of the result for
    all of them, so that notes played later never move a position chosen
    earlier, and the notes are taken in the order given. *)
Theorem notes_to_tab_no_lookahead (notes later : list NoteEvent.t) :
  StronglySorted
    (fun a b => fleb (NoteEvent.start_time a) (NoteEvent.start_time b) = true)
    (notes ++ later) ->
  exists out out',
    notes_to_tab notes = Ok out /\
    notes_to_tab (notes ++ later) = Ok (out ++ out') /\
    notes_to_tab notes = resolve_loop notes [] None.
Proof.
  intros S; apply time_ordered_key_le in S.
  pose proof (StronglySorted_prefix _ _ _ S) as S1.
  rewrite !notes_to_tab_loop.
  rewrite (sorted_of_ordered fltb NoteEvent.start_time _ S),
    (sorted_of_ordered fltb NoteEvent.start_time _ S1).
  destruct (resolve_loop_app notes [] None I) as (new & prev' & Hr & Hp & Hl).
  destruct (resolve_loop_placed later ([] ++ new) prev' Hp) as (new' & Hr' & _).
  exists new, new'; split; [exact Hr |]; split; [| reflexivity].
  rewrite Hl; exact Hr'.
Qed.

Lemma notes_to_tab_no_lookahead_witness :
  exists out out',
    notes_to_tab (firstn 2 demo_notes) = Ok out /\
    notes_to_tab (firstn 2 demo_notes ++ skipn 2 demo_notes) = Ok (out ++ out') /\
    notes_to_tab (firstn 2 demo_notes) =
      resolve_loop (firstn 2 demo_notes) [] None.
Proof.
  apply (notes_to_tab_no_lookahead (firstn 2 demo_notes) (skipn 2 demo_notes)).
  repeat constructor.
Defined.

(** Out of time order it is otherwise: a note given later with an earlier
    start time is placed first, and moves the note given before it. *)
Example notes_to_tab_late_note :
  let a := demo_note (b64 1 0) (b64 2 0) 69 in
  let b := demo_note (b64 0 0) (b64 1 0) 86 in
  (exists out, notes_to_tab [a] = Ok out /\
     map (fun t => (TabEvent.string t, TabEvent.fret t)) out = [(2, 0)]) /\
  (exists out, notes_to_tab [a; b] = Ok out /\
     map (fun t => (TabEvent.string t, TabEvent.fret t)) out = [(1, 10); (3, 7)]).
Proof. split; eexists; split; vm_compute; reflexivity. Qed.
